(** * ACC hotlap merger: a shallow embedding of [merger.py]

    The Python program reads a ZIP archive of session result files,
    reduces every session to the best valid lap per (playerId, carModel),
    merges the sessions, ranks the merged laps and writes a CSV report.

    Python integers are unbounded, so they are [Z]; [//] and [%] with a
    positive divisor are [Z.div] and [Z.modulo].  Python dictionaries keep
    insertion order and the program iterates over them, so they are
    association lists updated in place.  Exceptions are an error type
    threaded through a small monad. *)

From Stdlib Require Import ZArith List String Ascii Bool Lia Permutation Sorted.
From Stdlib Require Import SpecFloat.
Import ListNotations.

Local Open Scope Z_scope.

(** ** Exceptions *)

Inductive exn : Type :=
| UnboundLocalError (name : string)   (* a local variable read before assignment *)
| ValueError_min_empty                (* raised by the builtin [min] on an empty iterable *)
| KeyError_str (key : string)         (* [d[key]] on a dict without [key] *)
| LookupError_int (key : Z)           (* [car_models[key]] without [key] *)
| IndexError                          (* list index out of range *)
| OverflowError                       (* int too large to convert to float *)
| DecodeError.                        (* [json.load] on a member that is no session document *)

Inductive result (A : Type) : Type :=
| Ok (a : A)
| Raise (e : exn).
Arguments Ok {A} a.
Arguments Raise {A} e.

Definition bind {A B : Type} (r : result A) (k : A -> result B) : result B :=
  match r with
  | Ok a => k a
  | Raise e => Raise e
  end.

Notation "x <- r ;; k" := (bind r (fun x => k))
  (at level 61, r at next level, right associativity).

(** A [for] loop whose body may raise: the first exception ends the loop. *)
Fixpoint for_each {S A : Type} (body : S -> A -> result S) (xs : list A) (s : S)
  : result S :=
  match xs with
  | [] => Ok s
  | x :: xs' => s' <- body s x ;; for_each body xs' s'
  end.

(** ** Decidable equality of dictionary keys *)

Class EqDec (A : Type) := eq_dec : forall x y : A, {x = y} + {x <> y}.

#[export] Instance Z_EqDec : EqDec Z := Z.eq_dec.
#[export] Instance string_EqDec : EqDec string := string_dec.
#[export] Instance prod_EqDec {A B} `{EqDec A} `{EqDec B} : EqDec (A * B).
Proof.
  intros [a b] [a' b'].
  destruct (eq_dec a a') as [->|Ha]; [|right; congruence].
  destruct (eq_dec b b') as [->|Hb]; [left; reflexivity|right; congruence].
Defined.

(** ** Insertion-ordered dictionaries

    [Dict.set] is [d[k] = v]: an existing key keeps its position and gets
    the new value, a new key goes to the end.  [Dict.items] is the
    iteration order of [d.items()]. *)

Module Dict.
Section Dict.
Context {K V : Type} `{EqDec K}.

Definition t := list (K * V).

Definition empty : t := [].

Fixpoint get (k : K) (d : t) : option V :=
  match d with
  | [] => None
  | (k', v) :: d' => if eq_dec k k' then Some v else get k d'
  end.

Fixpoint set (k : K) (v : V) (d : t) : t :=
  match d with
  | [] => [(k, v)]
  | (k', v') :: d' =>
      if eq_dec k k' then (k', v) :: d' else (k', v') :: set k v d'
  end.

Definition items (d : t) : list (K * V) := d.

Definition keys (d : t) : list K := map fst d.

(** [{k: v for (k, v) in kvs}] *)
Definition of_items (kvs : list (K * V)) : t :=
  fold_left (fun d kv => set (fst kv) (snd kv) d) kvs empty.
End Dict.
Arguments t : clear implicits.
End Dict.

(** ** Data model: the decoded session document *)

Module Driver.
Record t := mk { playerId : string; firstName : string; lastName : string }.
End Driver.

Module Car.
Record t := mk { carId : Z; carModel : Z; drivers : list Driver.t }.
End Car.

Module Line.
Record t := mk { car : Car.t }.
End Line.

Module Lap.
Record t := mk {
  carId : Z;
  driverIndex : Z;
  laptime : Z;
  isValidForBest : bool;
  splits : list Z
}.
End Lap.

Module Session.
Record t := mk { laps : list Lap.t; leaderBoardLines : list Line.t }.
End Session.

(** The value stored per key: [{"laptime": .., "splits": .., "name": ..}] *)
Module Best.
Record t := mk { laptime : Z; splits : list Z; name : string * string }.
End Best.

(** A ranked row of [aggregate_results]. *)
Module Entry.
Record t := mk {
  player_id : string;
  name : string * string;
  car_model : Z;
  laptime : Z;
  splits : list Z;
  gap : Z
}.
End Entry.

Definition BestLapKey : Type := string * Z.
Definition BestLaps : Type := Dict.t BestLapKey Best.t.

(** ** [process_session_data] *)

Definition enumerate {A : Type} (l : list A) : list (nat * A) :=
  combine (seq 0 (List.length l)) l.

(** The (key, value) pairs of the [driver_map] comprehension, in the order
    the comprehension produces them. *)
Definition driver_map_items (leaderboard : list Line.t)
  : list ((Z * Z) * BestLapKey) :=
  flat_map (fun entry =>
    map (fun id =>
           ((Car.carId (Line.car entry), Z.of_nat (fst id)),
            (Driver.playerId (snd id), Car.carModel (Line.car entry))))
        (enumerate (Car.drivers (Line.car entry))))
    leaderboard.

Definition driver_map (leaderboard : list Line.t) : Dict.t (Z * Z) BestLapKey :=
  Dict.of_items (driver_map_items leaderboard).

Definition player_names_items (leaderboard : list Line.t)
  : list (string * (string * string)) :=
  flat_map (fun entry =>
    map (fun driver =>
           (Driver.playerId driver,
            (Driver.firstName driver, Driver.lastName driver)))
        (Car.drivers (Line.car entry)))
    leaderboard.

Definition player_names (leaderboard : list Line.t)
  : Dict.t string (string * string) :=
  Dict.of_items (player_names_items leaderboard).

(** [d[k]] on a dict keyed by strings. *)
Definition getitem_str {V : Type} (k : string) (d : Dict.t string V) : result V :=
  match Dict.get k d with
  | Some v => Ok v
  | None => Raise (KeyError_str k)
  end.

(** [key not in best_laps or lap["laptime"] < best_laps[key]["laptime"]] *)
Definition improves (key : BestLapKey) (t : Z) (best_laps : BestLaps) : bool :=
  match Dict.get key best_laps with
  | None => true
  | Some stored => t <? Best.laptime stored
  end.

(** The body of [for lap in laps]. *)
Definition lap_step (dm : Dict.t (Z * Z) BestLapKey)
    (pn : Dict.t string (string * string))
    (best_laps : BestLaps) (lap : Lap.t) : result BestLaps :=
  match Dict.get (Lap.carId lap, Lap.driverIndex lap) dm with
  | None => Ok best_laps
  | Some key =>
      if Lap.isValidForBest lap && improves key (Lap.laptime lap) best_laps
      then
        nm <- getitem_str (fst key) pn ;;
        Ok (Dict.set key
              (Best.mk (Lap.laptime lap) (Lap.splits lap) nm) best_laps)
      else Ok best_laps
  end.

Definition process_session_data (data : Session.t) : result BestLaps :=
  let laps := Session.laps data in
  let leaderboard := Session.leaderBoardLines data in
  for_each (lap_step (driver_map leaderboard) (player_names leaderboard))
           laps Dict.empty.

(** ** The archive

    A ZIP archive is its directory: the members in listed order.  A member
    is a well-formed session document or anything else.  [z.open(name)]
    resolves a name through the archive's name table, in which a later
    member of the same name replaces an earlier one. *)

Inductive payload : Type :=
| SessionDoc (s : Session.t)
| NotASession.

Module Member.
Record t := mk { filename : string; contents : payload }.
End Member.

Definition ZipFile : Type := list Member.t.

Definition namelist (z : ZipFile) : list string := map Member.filename z.

Fixpoint zip_open (z : ZipFile) (name : string) : result payload :=
  match z with
  | [] => Raise (KeyError_str name)
  | m :: z' =>
      match zip_open z' name with
      | Ok p => Ok p
      | Raise _ =>
          if string_dec name (Member.filename m) then Ok (Member.contents m)
          else Raise (KeyError_str name)
      end
  end.

Definition json_load (p : payload) : result Session.t :=
  match p with
  | SessionDoc s => Ok s
  | NotASession => Raise DecodeError
  end.

(** [s.endswith(suffix)] *)
Definition endswith (s suffix : string) : bool :=
  let n := String.length s in
  let k := String.length suffix in
  (k <=? n)%nat && String.eqb (substring (n - k) k s) suffix.

(** ** [aggregate_results] *)

(** The body of [for key, lap_info in session_best_laps.items()]. *)
Definition merge_step (aggregated_results : BestLaps)
    (kv : BestLapKey * Best.t) : BestLaps :=
  if improves (fst kv) (Best.laptime (snd kv)) aggregated_results
  then Dict.set (fst kv) (snd kv) aggregated_results
  else aggregated_results.

Definition merge_session (aggregated_results session_best_laps : BestLaps)
  : BestLaps :=
  fold_left merge_step (Dict.items session_best_laps) aggregated_results.

(** The locals that live across iterations of [for filename in z.namelist()]:
    [session_data] is unbound until the first assignment. *)
Module Loop.
Record t := mk {
  session_data : option Session.t;
  aggregated_results : BestLaps
}.
Definition init : t := mk None Dict.empty.
End Loop.

(** The body of the member loop.  The call of [process_session_data] and the
    merge are at the loop's level, after the [if], not inside it. *)
Definition member_step (z : ZipFile) (st : Loop.t) (filename : string)
  : result Loop.t :=
  session_data <-
    (if endswith filename ".json"
     then file <- zip_open z filename ;;
          s <- json_load file ;;
          Ok (Some s)
     else Ok (Loop.session_data st)) ;;
  match session_data with
  | None => Raise (UnboundLocalError "session_data")
  | Some data =>
      session_best_laps <- process_session_data data ;;
      Ok (Loop.mk (Some data)
            (merge_session (Loop.aggregated_results st) session_best_laps))
  end.

Definition aggregate_loop (z : ZipFile) : result Loop.t :=
  for_each (member_step z) (namelist z) Loop.init.

(** [min(iterable, key=..)]: the first of the minimal elements. *)
Fixpoint min_from {A : Type} (key : A -> Z) (best : A) (l : list A) : A :=
  match l with
  | [] => best
  | x :: l' => min_from key (if key x <? key best then x else best) l'
  end.

Definition py_min {A : Type} (key : A -> Z) (l : list A) : result A :=
  match l with
  | [] => Raise ValueError_min_empty
  | x :: l' => Ok (min_from key x l')
  end.

(** [sorted(iterable, key=..)] is a stable sort; insertion from the right
    is one, and a stable sort has only one possible result. *)
Fixpoint insert_by {A : Type} (key : A -> Z) (x : A) (l : list A) : list A :=
  match l with
  | [] => [x]
  | y :: l' => if key x <=? key y then x :: y :: l' else y :: insert_by key x l'
  end.

Definition sorted {A : Type} (key : A -> Z) (l : list A) : list A :=
  fold_right (insert_by key) [] l.

Definition rank_entry (best_lap : Z) (kv : BestLapKey * Best.t) : Entry.t :=
  Entry.mk (fst (fst kv)) (Best.name (snd kv)) (snd (fst kv))
           (Best.laptime (snd kv)) (Best.splits (snd kv))
           (Best.laptime (snd kv) - best_lap).

(** The part of [aggregate_results] after the [with] block. *)
Definition rank (aggregated_results : BestLaps) : result (list Entry.t) :=
  fastest <- py_min (fun x => Best.laptime (snd x))
                    (Dict.items aggregated_results) ;;
  let best_lap := Best.laptime (snd fastest) in
  Ok (sorted Entry.laptime
        (map (rank_entry best_lap) (Dict.items aggregated_results))).

Definition aggregate_results (z : ZipFile) : result (list Entry.t) :=
  st <- aggregate_loop z ;;
  rank (Loop.aggregated_results st).

(** ** Formatting *)

Definition digit_char (d : Z) : ascii := ascii_of_nat (48 + Z.to_nat d).

(** Decimal digits of a non-negative integer, most significant first. *)
Fixpoint decimal_fuel (fuel : nat) (n : Z) : string :=
  match fuel with
  | O => EmptyString
  | S fuel' =>
      if n <? 10 then String (digit_char n) EmptyString
      else String.append (decimal_fuel fuel' (n / 10))
                         (String (digit_char (n mod 10)) EmptyString)
  end.

Definition decimal (n : Z) : string :=
  decimal_fuel (S (Z.to_nat (Z.log2 n))) n.

Fixpoint zeros (k : nat) : string :=
  match k with
  | O => EmptyString
  | S k' => String "0"%char (zeros k')
  end.

Definition zfill (width : nat) (s : string) : string :=
  String.append (zeros (width - String.length s)) s.

(** The format spec [0w] on an integer: the sign, then zeros, then digits,
    [w] characters at least. *)
Definition format_int_zero_pad (width : nat) (n : Z) : string :=
  if n <? 0
  then String "-"%char (zfill (width - 1) (decimal (- n)))
  else zfill width (decimal n).

Definition ms_to_time_format (milliseconds : Z) : string :=
  let minutes := milliseconds / 60000 in
  let seconds := (milliseconds mod 60000) / 1000 in
  let milliseconds := milliseconds mod 1000 in
  String.append (format_int_zero_pad 2 minutes)
    (String ":"%char
       (String.append (format_int_zero_pad 2 seconds)
          (String "."%char (format_int_zero_pad 3 milliseconds)))).

(** [int / int] is the binary64 number nearest to the exact quotient; an
    integer is an exact mantissa with exponent 0, whatever its size. *)
Definition exact_int (a : Z) : spec_float :=
  match a with
  | Z0 => S754_zero false
  | Zpos p => S754_finite false p 0
  | Zneg p => S754_finite true p 0
  end.

Definition int_truediv_1000 (a : Z) : result spec_float :=
  match SFdiv 53 1024 (exact_int a) (exact_int 1000) with
  | S754_infinity _ => Raise OverflowError
  | f => Ok f
  end.

Definition round_half_even (num den : Z) : Z :=
  let q := num / den in
  match 2 * (num mod den) ?= den with
  | Lt => q
  | Gt => q + 1
  | Eq => if Z.even q then q else q + 1
  end.

Definition sign_prefix (s : bool) (body : string) : string :=
  if s then String "-"%char body else body.

(** The format spec [.3f] on a float: the exact binary value rounded to
    three decimals, ties to even. *)
Definition format_fixed3 (f : spec_float) : string :=
  match f with
  | S754_nan => "nan"%string
  | S754_infinity s => sign_prefix s "inf"%string
  | S754_zero s => sign_prefix s "0.000"%string
  | S754_finite s m e =>
      let thousandths :=
        match e with
        | Zneg p => round_half_even (Zpos m * 1000) (2 ^ Zpos p)
        | _ => Zpos m * 1000 * 2 ^ e
        end in
      sign_prefix s
        (String.append (decimal (thousandths / 1000))
           (String "."%char (zfill 3 (decimal (thousandths mod 1000)))))
  end.

(** [f'{gap / 1000:.3f}'] *)
Definition format_gap (gap : Z) : result string :=
  f <- int_truediv_1000 gap ;;
  Ok (format_fixed3 f).

(** ** [export_hotlaps] and the script *)

Definition Row : Type := list string.
Definition FileSystem : Type := Dict.t string (list Row).

Definition fieldnames : Row :=
  ["Name"; "Car"; "Lap Time"; "S1"; "S2"; "S3"; "Gap"]%string.

Definition list_index (l : list Z) (i : nat) : result Z :=
  match nth_error l i with
  | Some v => Ok v
  | None => Raise IndexError
  end.

Fixpoint map_result {A B : Type} (f : A -> result B) (l : list A)
  : result (list B) :=
  match l with
  | [] => Ok []
  | x :: l' => y <- f x ;; ys <- map_result f l' ;; Ok (y :: ys)
  end.

Section Report.
(** The table of the module [cars], which is not part of the sources:
    [car_models[k]] is [Some] display name, or fails. *)
Variable car_models : Z -> option string.

Definition car_name (k : Z) : result string :=
  match car_models k with
  | Some n => Ok n
  | None => Raise (LookupError_int k)
  end.

Definition out_row (entry : Entry.t) : result Row :=
  let nm := String.append (fst (Entry.name entry))
              (String " "%char (snd (Entry.name entry))) in
  car <- car_name (Entry.car_model entry) ;;
  let lap := ms_to_time_format (Entry.laptime entry) in
  s1 <- list_index (Entry.splits entry) 0 ;;
  s2 <- list_index (Entry.splits entry) 1 ;;
  s3 <- list_index (Entry.splits entry) 2 ;;
  g <- format_gap (Entry.gap entry) ;;
  Ok [nm; car; lap; ms_to_time_format s1; ms_to_time_format s2;
      ms_to_time_format s3; g].

(** The file is opened for writing, hence created empty, before the rows
    are computed. *)
Definition export_hotlaps (output_csv : string) (data : list Entry.t)
    (fs : FileSystem) : FileSystem * result unit :=
  let opened := Dict.set output_csv [] fs in
  match map_result out_row data with
  | Raise e => (opened, Raise e)
  | Ok out_data => (Dict.set output_csv (fieldnames :: out_data) opened, Ok tt)
  end.

(** The script: [aggregate_results], then [export_hotlaps]. *)
Definition main (z : ZipFile) (output : string) (fs : FileSystem)
  : FileSystem * result unit :=
  match aggregate_results z with
  | Raise e => (fs, Raise e)
  | Ok aggregated_data => export_hotlaps output aggregated_data fs
  end.
End Report.

(** ** Sample data *)

Module Sample.
Definition alice := Driver.mk "P1" "Alice" "Archer".
Definition bob := Driver.mk "P2" "Bob" "Baker".
Definition board := [Line.mk (Car.mk 7 5 [alice; bob])].
Definition lapA1 := Lap.mk 7 0 90000 true [30000; 30000; 30000].
Definition lapA2 := Lap.mk 7 0 80000 false [26000; 27000; 27000].
Definition lapB1 := Lap.mk 7 0 85000 true [28000; 28000; 29000].
Definition lapP2 := Lap.mk 7 1 86500 true [28500; 29000; 29000].
Definition lapX := Lap.mk 9 3 70000 true [23000; 23000; 24000].
Definition sessionA := Session.mk [lapA1; lapA2; lapX] board.
Definition sessionB := Session.mk [lapB1; lapP2] board.
Definition no_valid := Session.mk [lapA2; lapX] board.
Definition two_sessions : ZipFile :=
  [Member.mk "a.json" (SessionDoc sessionA);
   Member.mk "b.json" (SessionDoc sessionB)].
Definition readme_first : ZipFile :=
  [Member.mk "README.txt" NotASession;
   Member.mk "a.json" (SessionDoc sessionA)].
Definition readme_last : ZipFile :=
  [Member.mk "a.json" (SessionDoc sessionA);
   Member.mk "README.txt" NotASession].
Definition only_invalid : ZipFile :=
  [Member.mk "a.json" (SessionDoc no_valid)].
(** Two laps of the same time by the same driver, told apart by splits. *)
Definition lapT1 := Lap.mk 7 0 85000 true [28000; 28000; 29000].
Definition lapT2 := Lap.mk 7 0 85000 true [29000; 28000; 28000].
Definition tieA := Session.mk [lapT1; lapT2] board.
Definition tieB := Session.mk [lapT2] board.
Definition tie_sessions : ZipFile :=
  [Member.mk "a.json" (SessionDoc tieA);
   Member.mk "b.json" (SessionDoc tieB)].
Definition cars (k : Z) : option string :=
  if k =? 5 then Some "Nissan GT-R Nismo GT3"%string else None.
End Sample.

(** ** Vocabulary of the specification *)

(** A lap counts for [key] when the leaderboard lookup resolves it to [key]
    and it is flagged valid. *)
Definition resolves (s : Session.t) (lap : Lap.t) (key : BestLapKey) : Prop :=
  Dict.get (Lap.carId lap, Lap.driverIndex lap)
           (driver_map (Session.leaderBoardLines s)) = Some key.

Definition counts_for (s : Session.t) (key : BestLapKey) (lap : Lap.t) : Prop :=
  resolves s lap key /\ Lap.isValidForBest lap = true.

(** The pairs one leaderboard entry contributes to [driver_map]. *)
Definition driver_block (entry : Line.t) : list ((Z * Z) * BestLapKey) :=
  map (fun id =>
         ((Car.carId (Line.car entry), Z.of_nat (fst id)),
          (Driver.playerId (snd id), Car.carModel (Line.car entry))))
      (enumerate (Car.drivers (Line.car entry))).

(** The records a session offers to the best-lap table, in lap order: one
    per resolved valid lap. *)
Definition lap_offer (dm : Dict.t (Z * Z) BestLapKey)
    (pn : Dict.t string (string * string)) (lap : Lap.t)
  : list (BestLapKey * Best.t) :=
  match Dict.get (Lap.carId lap, Lap.driverIndex lap) dm with
  | None => []
  | Some key =>
      if Lap.isValidForBest lap
      then match Dict.get (fst key) pn with
           | Some nm => [(key, Best.mk (Lap.laptime lap) (Lap.splits lap) nm)]
           | None => []
           end
      else []
  end.

Definition session_offers (s : Session.t) : list (BestLapKey * Best.t) :=
  flat_map (lap_offer (driver_map (Session.leaderBoardLines s))
                      (player_names (Session.leaderBoardLines s)))
           (Session.laps s).

(** [r] is the first of the fastest records offered for [key]: every
    earlier offer for [key] is strictly slower, no later one is faster. *)
Definition first_fastest {R : Type} (time : R -> Z)
    (offers : list (BestLapKey * R)) (key : BestLapKey) (r : R) : Prop :=
  exists before after,
    offers = before ++ (key, r) :: after /\
    (forall r', In (key, r') before -> time r < time r') /\
    (forall r', In (key, r') after -> time r <= time r').

(** The names of the members the loop opens, and what opening one gives. *)
Definition is_json (name : string) : bool := endswith name ".json".

Definition json_names (z : ZipFile) : list string :=
  filter is_json (namelist z).

Definition load_member (z : ZipFile) (name : string) : result Session.t :=
  file <- zip_open z name ;; json_load file.

(** Re-merging the session the loop holds changes nothing: true after the
    loop body has merged it once. *)
Definition settled (st : Loop.t) : Prop :=
  match Loop.session_data st with
  | None => True
  | Some s =>
      exists d, process_session_data s = Ok d /\
                merge_session (Loop.aggregated_results st) d
                = Loop.aggregated_results st
  end.

(** [name] opens as a session that reduces to [d]. *)
Definition reduces_to (z : ZipFile) (name : string) (d : BestLaps) : Prop :=
  exists s, load_member z name = Ok s /\ process_session_data s = Ok d.

(** The run fails, and not with the error that [min] raises on an empty
    iterable: what an explicit emptiness check ahead of [min] would give. *)
Definition fails_by_explicit_check (z : ZipFile) : Prop :=
  exists e, aggregate_results z = Raise e /\ e <> ValueError_min_empty.

Definition json_members (z : ZipFile) : ZipFile :=
  filter (fun m => is_json (Member.filename m)) z.

Definition by_laptime (a b : Entry.t) : Prop :=
  Entry.laptime a <= Entry.laptime b.

(** The stored record of a ranked row, and the row of a key. *)
Definition entry_key (e : Entry.t) : BestLapKey :=
  (Entry.player_id e, Entry.car_model e).

Definition entry_record (e : Entry.t) : Best.t :=
  Best.mk (Entry.laptime e) (Entry.splits e) (Entry.name e).

Definition entry_get (key : BestLapKey) (out : list Entry.t) : option Best.t :=
  Dict.get key (map (fun e => (entry_key e, entry_record e)) out).

(** Aggregating [z] returns rows that agree, key by key, in laptime, splits
    and name with the direct reduction of [s]. *)
Definition single_session_agrees (z : ZipFile) (s : Session.t) : Prop :=
  exists d out,
    process_session_data s = Ok d /\
    aggregate_results z = Ok out /\
    forall key, entry_get key out = Dict.get key d.

(** Reading a rendered field back: decimal digits and their value. *)
Definition is_digit (c : ascii) : bool :=
  ((48 <=? nat_of_ascii c) && (nat_of_ascii c <=? 57))%nat.

Fixpoint all_digits (s : string) : bool :=
  match s with
  | EmptyString => true
  | String c s' => is_digit c && all_digits s'
  end.

Fixpoint parse_from (acc : Z) (s : string) : Z :=
  match s with
  | EmptyString => acc
  | String c s' => parse_from (acc * 10 + (Z.of_nat (nat_of_ascii c) - 48)) s'
  end.

Definition parse_decimal (s : string) : Z := parse_from 0 s.

(** The text of a time: minutes, [:], seconds, [.], milliseconds. *)
Definition time_text (mm ss mmm : string) : string :=
  String.append mm
    (String ":"%char (String.append ss (String "."%char mmm))).

(** Thousandths written as seconds with three decimals. *)
Definition gap_text (gap : Z) : string :=
  String.append (decimal (gap / 1000))
    (String "."%char (zfill 3 (decimal (gap mod 1000)))).

Definition gap_check (g : nat) : bool :=
  match format_gap (Z.of_nat g) with
  | Ok s => String.eqb s (gap_text (Z.of_nat g))
  | Raise _ => false
  end.

(** The distinct keys of a list, each at the place of its first occurrence. *)
Definition first_seen (keys : list BestLapKey) : list BestLapKey :=
  rev (nodup eq_dec (rev keys)).


(** Reading a time text back to milliseconds: digits accumulate, a colon
    closes the minutes and a dot closes the seconds. *)
Fixpoint read_time_from (total cur : Z) (s : string) : Z :=
  match s with
  | EmptyString => total + cur
  | String c s' =>
      if Ascii.eqb c ":" then read_time_from (total + cur * 60000) 0 s'
      else if Ascii.eqb c "." then read_time_from (total + cur * 1000) 0 s'
      else read_time_from total (cur * 10 + (Z.of_nat (nat_of_ascii c) - 48)) s'
  end.

Definition read_time (s : string) : Z := read_time_from 0 0 s.

(** More sample data. *)
Module More.
Definition carol := Driver.mk "P3" "Carol" "Clark".
Definition board2 :=
  [Line.mk (Car.mk 7 5 [Sample.alice; Sample.bob]);
   Line.mk (Car.mk 8 99 [carol])].
Definition lapC := Lap.mk 8 0 85000 true [28000; 28500; 28500].
Definition sessionC := Session.mk [lapC; Sample.lapB1] board2.
Definition bestA : BestLaps :=
  [(("P1"%string, 5),
    Best.mk 90000 [30000; 30000; 30000] ("Alice"%string, "Archer"%string))].
Definition bestB : BestLaps :=
  [(("P1"%string, 5),
    Best.mk 85000 [28000; 28000; 29000] ("Alice"%string, "Archer"%string));
   (("P2"%string, 5),
    Best.mk 86500 [28500; 29000; 29000] ("Bob"%string, "Baker"%string))].
Definition mixed : ZipFile :=
  [Member.mk "a.json" (SessionDoc Sample.sessionA);
   Member.mk "notes.txt" NotASession;
   Member.mk "b.json" (SessionDoc Sample.sessionB);
   Member.mk "img/" NotASession].
Definition broken : ZipFile :=
  [Member.mk "a.json" (SessionDoc Sample.sessionA);
   Member.mk "b.json" NotASession].
Definition unknown_car : ZipFile :=
  [Member.mk "c.json" (SessionDoc sessionC)].
Definition old_report : FileSystem :=
  [("out.csv"%string, [["stale"%string]]); ("keep.txt"%string, [])].
(** Two drivers with the same best laptime; the lap of P2 comes first. *)
Definition lapQ := Lap.mk 7 1 85000 true [28500; 28500; 28000].
Definition sessionT := Session.mk [lapQ; Sample.lapT1] Sample.board.
Definition tied_drivers : ZipFile :=
  [Member.mk "t.json" (SessionDoc sessionT)].
Definition tied_rows : list Entry.t :=
  [Entry.mk "P2" ("Bob"%string, "Baker"%string) 5 85000
            [28500; 28500; 28000] 0;
   Entry.mk "P1" ("Alice"%string, "Archer"%string) 5 85000
            [28000; 28000; 29000] 0].
End More.

(** * Properties *)

(** ** Dictionaries *)

Section DictFacts.
Context {K V : Type} `{EqDec K}.
Implicit Types (d : Dict.t K V) (k : K) (v : V).

Lemma dict_get_set_same d k v : Dict.get k (Dict.set k v d) = Some v.
Proof.
  induction d as [|[k' v'] d IH]; simpl.
  - destruct (eq_dec k k); congruence.
  - destruct (eq_dec k k') as [->|Hne]; simpl.
    + destruct (eq_dec k' k'); congruence.
    + destruct (eq_dec k k'); [contradiction|exact IH].
Qed.

Lemma dict_get_set_other d k k' v :
  k <> k' -> Dict.get k' (Dict.set k v d) = Dict.get k' d.
Proof.
  intros Hne. induction d as [|[k0 v0] d IH]; simpl.
  - destruct (eq_dec k' k); congruence.
  - destruct (eq_dec k k0) as [->|Hk]; simpl.
    + destruct (eq_dec k' k0); congruence.
    + destruct (eq_dec k' k0); [reflexivity|exact IH].
Qed.

Lemma dict_get_None_iff d k : Dict.get k d = None <-> ~ In k (Dict.keys d).
Proof.
  induction d as [|[k' v'] d IH]; simpl.
  - tauto.
  - destruct (eq_dec k k') as [->|Hne].
    + split; [discriminate|intros Hn; exfalso; apply Hn; now left].
    + rewrite IH. split; [intros Hn [E|Hi]; [congruence|tauto]|tauto].
Qed.

Lemma dict_get_In d k v : Dict.get k d = Some v -> In (k, v) d.
Proof.
  induction d as [|[k' v'] d IH]; simpl; [discriminate|].
  destruct (eq_dec k k') as [->|Hne]; [intros [= ->]; now left|auto].
Qed.

Lemma dict_In_get d k v :
  NoDup (Dict.keys d) -> In (k, v) d -> Dict.get k d = Some v.
Proof.
  induction d as [|[k' v'] d IH]; simpl; [tauto|].
  intros Hnd [E|Hi].
  - injection E as -> ->. destruct (eq_dec k k); congruence.
  - inversion Hnd as [|? ? Hnotin Hnd']; subst.
    destruct (eq_dec k k') as [->|Hne]; [|auto].
    exfalso. apply Hnotin. change k' with (fst (k', v)). now apply in_map.
Qed.

Lemma dict_get_app d1 d2 k :
  Dict.get k (d1 ++ d2) =
  match Dict.get k d1 with Some v => Some v | None => Dict.get k d2 end.
Proof.
  induction d1 as [|[k' v'] d1 IH]; simpl; [reflexivity|].
  destruct (eq_dec k k'); [reflexivity|exact IH].
Qed.

Lemma dict_set_new d k v :
  ~ In k (Dict.keys d) -> Dict.set k v d = d ++ [(k, v)].
Proof.
  induction d as [|[k' v'] d IH]; simpl; [reflexivity|].
  intros Hn. destruct (eq_dec k k') as [->|Hne]; [tauto|].
  f_equal. apply IH. tauto.
Qed.

Lemma dict_keys_set d k v :
  Dict.keys (Dict.set k v d) =
  if in_dec eq_dec k (Dict.keys d) then Dict.keys d else Dict.keys d ++ [k].
Proof.
  induction d as [|[k' v'] d IH]; simpl; [reflexivity|].
  destruct (eq_dec k k') as [->|Hne]; simpl.
  - destruct (eq_dec k' k'); [reflexivity|congruence].
  - rewrite IH. destruct (eq_dec k' k); [congruence|].
    destruct (in_dec eq_dec k (Dict.keys d)); reflexivity.
Qed.

Lemma dict_set_NoDup d k v :
  NoDup (Dict.keys d) -> NoDup (Dict.keys (Dict.set k v d)).
Proof.
  intros Hnd. rewrite dict_keys_set.
  destruct (in_dec eq_dec k (Dict.keys d)) as [Hi|Hn]; [exact Hnd|].
  apply (Permutation_NoDup (l := k :: Dict.keys d)).
  - apply Permutation_cons_append.
  - now constructor.
Qed.

(** A comprehension keeps, for every key, the value of its last pair. *)
Lemma dict_get_fold_set (kvs : list (K * V)) d k :
  Dict.get k (fold_left (fun d kv => Dict.set (fst kv) (snd kv) d) kvs d) =
  match Dict.get k (rev kvs) with
  | Some v => Some v
  | None => Dict.get k d
  end.
Proof.
  revert d. induction kvs as [|[k' v'] kvs IH]; intros d; simpl.
  - reflexivity.
  - rewrite IH, dict_get_app. destruct (Dict.get k (rev kvs)); [reflexivity|].
    simpl. destruct (eq_dec k k') as [->|Hne].
    + apply dict_get_set_same.
    + apply dict_get_set_other. congruence.
Qed.

Lemma dict_get_of_items (kvs : list (K * V)) k :
  Dict.get k (Dict.of_items kvs) = Dict.get k (rev kvs).
Proof.
  unfold Dict.of_items. rewrite dict_get_fold_set.
  destruct (Dict.get k (rev kvs)); reflexivity.
Qed.

Lemma dict_of_items_In (kvs : list (K * V)) k v :
  Dict.get k (Dict.of_items kvs) = Some v -> In (k, v) kvs.
Proof.
  rewrite dict_get_of_items. intros Hg. apply dict_get_In in Hg.
  now apply in_rev.
Qed.

Lemma dict_of_items_key (kvs : list (K * V)) k :
  In k (map fst kvs) -> exists v, Dict.get k (Dict.of_items kvs) = Some v.
Proof.
  intros Hi. rewrite dict_get_of_items.
  destruct (Dict.get k (rev kvs)) as [v|] eqn:E; [now exists v|].
  apply dict_get_None_iff in E. exfalso. apply E.
  unfold Dict.keys. rewrite map_rev, <- in_rev. exact Hi.
Qed.

(** Last pair wins: the pairs after the block [mid] do not mention [k],
    and [mid] itself binds [k] once. *)
Lemma dict_of_items_last (pre mid post : list (K * V)) k v :
  In (k, v) mid -> NoDup (map fst mid) -> ~ In k (map fst post) ->
  Dict.get k (Dict.of_items (pre ++ mid ++ post)) = Some v.
Proof.
  intros Hin Hnd Hpost. rewrite dict_get_of_items, !rev_app_distr, !dict_get_app.
  assert (Dict.get k (rev post) = None) as ->.
  { apply dict_get_None_iff. unfold Dict.keys.
    rewrite map_rev, <- in_rev. exact Hpost. }
  rewrite (dict_In_get (rev mid) k v); [reflexivity| |].
  - unfold Dict.keys. rewrite map_rev. now apply NoDup_rev.
  - rewrite <- in_rev. exact Hin.
Qed.
End DictFacts.

(** ** The lookups built from the leaderboard *)

Lemma combine_seq_In {A : Type} (l : list A) (start i : nat) (x : A) :
  nth_error l i = Some x -> In ((start + i)%nat, x) (combine (seq start (List.length l)) l).
Proof.
  revert start i. induction l as [|y l IH]; intros start [|i]; simpl; try discriminate.
  - intros [= ->]. left. f_equal. lia.
  - intros Hn. right. replace (start + S i)%nat with (S start + i)%nat by lia.
    now apply IH.
Qed.

Lemma combine_seq_fst {A : Type} (l : list A) (start : nat) :
  map fst (combine (seq start (List.length l)) l) = seq start (List.length l).
Proof.
  revert start. induction l as [|y l IH]; intros start; simpl; [reflexivity|].
  now rewrite IH.
Qed.

Lemma combine_seq_bound {A : Type} (l : list A) (start i : nat) (x : A) :
  In (i, x) (combine (seq start (List.length l)) l) ->
  (start <= i < start + List.length l)%nat /\ In x l.
Proof.
  intros Hin. split.
  - apply in_combine_l in Hin. apply in_seq in Hin. lia.
  - now apply in_combine_r in Hin.
Qed.

Lemma enumerate_In {A : Type} (l : list A) (i : nat) (x : A) :
  nth_error l i = Some x -> In (i, x) (enumerate l).
Proof. intros Hn. apply (combine_seq_In l 0 i x Hn). Qed.

Lemma driver_map_items_app (l1 l2 : list Line.t) :
  driver_map_items (l1 ++ l2) = driver_map_items l1 ++ driver_map_items l2.
Proof. apply flat_map_app. Qed.

Lemma driver_block_keys_NoDup (entry : Line.t) :
  NoDup (map fst (driver_block entry)).
Proof.
  unfold driver_block, enumerate. rewrite map_map. simpl.
  rewrite <- (map_map fst (fun i => (Car.carId (Line.car entry), Z.of_nat i))).
  rewrite combine_seq_fst. apply Finite.Injective_map_NoDup.
  - intros i j [= Hij]. now apply Nat2Z.inj.
  - apply seq_NoDup.
Qed.

Lemma driver_map_items_key (lb : list Line.t) (cid idx : Z) :
  In (cid, idx) (map fst (driver_map_items lb)) ->
  exists e, In e lb /\ Car.carId (Line.car e) = cid /\
            0 <= idx < Z.of_nat (List.length (Car.drivers (Line.car e))).
Proof.
  intros Hin. apply in_map_iff in Hin as [[k v] [Hk Hin]]. simpl in Hk. subst k.
  apply in_flat_map in Hin as [e [He Hin]].
  apply in_map_iff in Hin as [[i d] [Heq Hin]]. simpl in Heq.
  injection Heq as Hc Hi _. apply combine_seq_bound in Hin as [Hb _].
  exists e. repeat split; try assumption; lia.
Qed.

Lemma player_names_items_app (l1 l2 : list Line.t) :
  player_names_items (l1 ++ l2) = player_names_items l1 ++ player_names_items l2.
Proof. apply flat_map_app. Qed.

Lemma player_names_items_key (lb : list Line.t) (pid : string) :
  In pid (map fst (player_names_items lb)) <->
  exists e d, In e lb /\ In d (Car.drivers (Line.car e)) /\ Driver.playerId d = pid.
Proof.
  split.
  - intros Hin. apply in_map_iff in Hin as [[k v] [Hk Hin]]. simpl in Hk. subst k.
    apply in_flat_map in Hin as [e [He Hin]].
    apply in_map_iff in Hin as [d [Heq Hd]]. injection Heq as Hp _.
    now exists e, d.
  - intros [e [d [He [Hd Hp]]]]. apply in_map_iff.
    exists (pid, (Driver.firstName d, Driver.lastName d)). split; [reflexivity|].
    apply in_flat_map. exists e. split; [exact He|].
    apply in_map_iff. exists d. now rewrite Hp.
Qed.

(** C9.  Building the session lookups, the last leaderboard entry that
    binds a (carId, driverIndex) pair gives the pair's value in
    [driver_map], and the last driver carrying a playerId gives the name
    stored for it in [player_names]: later entries overwrite earlier ones. *)
Theorem lookups_last_entry_wins :
  (forall before entry after idx driver,
      nth_error (Car.drivers (Line.car entry)) idx = Some driver ->
      (forall e, In e after ->
                 Car.carId (Line.car e) = Car.carId (Line.car entry) ->
                 (List.length (Car.drivers (Line.car e)) <= idx)%nat) ->
      Dict.get (Car.carId (Line.car entry), Z.of_nat idx)
               (driver_map (before ++ entry :: after))
      = Some (Driver.playerId driver, Car.carModel (Line.car entry))) /\
  (forall before entry after ds1 driver ds2,
      Car.drivers (Line.car entry) = ds1 ++ driver :: ds2 ->
      (forall d, In d ds2 -> Driver.playerId d <> Driver.playerId driver) ->
      (forall e d, In e after -> In d (Car.drivers (Line.car e)) ->
                   Driver.playerId d <> Driver.playerId driver) ->
      Dict.get (Driver.playerId driver)
               (player_names (before ++ entry :: after))
      = Some (Driver.firstName driver, Driver.lastName driver)).
Proof.
  split.
  - intros before entry after idx driver Hnth Hlater.
    unfold driver_map. rewrite driver_map_items_app.
    change (entry :: after) with ([entry] ++ after).
    rewrite driver_map_items_app.
    replace (driver_map_items [entry]) with (driver_block entry)
      by (simpl; now rewrite app_nil_r).
    apply dict_of_items_last.
    + unfold driver_block. apply in_map_iff. exists (idx, driver).
      split; [reflexivity|now apply enumerate_In].
    + apply driver_block_keys_NoDup.
    + intros Hin. apply driver_map_items_key in Hin as [e [He [Hc Hi]]].
      specialize (Hlater e He Hc). lia.
  - intros before entry after ds1 driver ds2 Hds Hrest Hlater.
    unfold player_names. rewrite player_names_items_app.
    change (entry :: after) with ([entry] ++ after).
    rewrite player_names_items_app. simpl. rewrite app_nil_r, Hds, map_app.
    simpl. rewrite <- !app_assoc. simpl.
    set (kv := (Driver.playerId driver,
                (Driver.firstName driver, Driver.lastName driver))).
    match goal with
    | |- Dict.get _ (Dict.of_items (?a ++ ?b ++ kv :: ?c ++ ?d)) = _ =>
        replace (a ++ b ++ kv :: c ++ d) with ((a ++ b) ++ [kv] ++ (c ++ d))
          by (rewrite <- !app_assoc; reflexivity)
    end.
    apply dict_of_items_last.
    + now left.
    + simpl. constructor; [tauto|constructor].
    + rewrite map_app, in_app_iff. intros [Hin|Hin].
      * rewrite map_map in Hin. simpl in Hin.
        apply in_map_iff in Hin as [d [Hp Hd]]. exact (Hrest d Hd Hp).
      * apply player_names_items_key in Hin as [e [d [He [Hd Hp]]]].
        exact (Hlater e d He Hd Hp).
Qed.

(** A leaderboard in which car 7 is listed twice and player P1 twice. *)
Lemma lookups_last_entry_wins_witness :
  Dict.get (7, Z.of_nat 0)
    (driver_map ([Line.mk (Car.mk 7 5 [Sample.alice])] ++
                 Line.mk (Car.mk 7 8 [Sample.bob; Driver.mk "P1" "Al" "A."]) :: []))
  = Some ("P2"%string, 8) /\
  Dict.get "P1"%string
    (player_names ([Line.mk (Car.mk 7 5 [Sample.alice])] ++
                   Line.mk (Car.mk 7 8 [Sample.bob; Driver.mk "P1" "Al" "A."]) :: []))
  = Some ("Al"%string, "A."%string).
Proof.
  split.
  - apply (proj1 lookups_last_entry_wins
             [Line.mk (Car.mk 7 5 [Sample.alice])]
             (Line.mk (Car.mk 7 8 [Sample.bob; Driver.mk "P1" "Al" "A."]))
             [] 0%nat Sample.bob).
    + reflexivity.
    + simpl. tauto.
  - apply (proj2 lookups_last_entry_wins
             [Line.mk (Car.mk 7 5 [Sample.alice])]
             (Line.mk (Car.mk 7 8 [Sample.bob; Driver.mk "P1" "Al" "A."]))
             [] [Sample.bob] (Driver.mk "P1" "Al" "A.") []).
    + reflexivity.
    + simpl. tauto.
    + simpl. tauto.
Defined.

(** ** The best-lap table as a fold of offers *)

Lemma for_each_flat_map {S A B : Type} (body : S -> A -> result S)
    (g : S -> B -> S) (f : A -> list B) (xs : list A) (s : S) :
  (forall s x, body s x = Ok (fold_left g (f x) s)) ->
  for_each body xs s = Ok (fold_left g (flat_map f xs) s).
Proof.
  intros Hbody. revert s. induction xs as [|x xs IH]; intros s; simpl.
  - reflexivity.
  - rewrite Hbody. simpl. rewrite IH, fold_left_app. reflexivity.
Qed.

Lemma names_resolve (lb : list Line.t) (ck : Z * Z) (key : BestLapKey) :
  Dict.get ck (driver_map lb) = Some key ->
  exists nm, Dict.get (fst key) (player_names lb) = Some nm.
Proof.
  intros Hg. apply dict_of_items_In in Hg.
  apply in_flat_map in Hg as [e [He Hin]].
  apply in_map_iff in Hin as [[i d] [Heq Hin]]. simpl in Heq.
  injection Heq as _ Hk. subst key. simpl.
  apply combine_seq_bound in Hin as [_ Hd].
  apply dict_of_items_key. apply player_names_items_key. now exists e, d.
Qed.

Lemma lap_step_offer (lb : list Line.t) (d : BestLaps) (lap : Lap.t) :
  lap_step (driver_map lb) (player_names lb) d lap =
  Ok (fold_left merge_step (lap_offer (driver_map lb) (player_names lb) lap) d).
Proof.
  unfold lap_step, lap_offer.
  destruct (Dict.get (Lap.carId lap, Lap.driverIndex lap) (driver_map lb))
    as [key|] eqn:Hk; [|reflexivity].
  destruct (names_resolve lb _ key Hk) as [nm Hnm].
  unfold getitem_str. rewrite Hnm.
  destruct (Lap.isValidForBest lap); simpl; [|reflexivity].
  unfold merge_step. simpl.
  destruct (improves key (Lap.laptime lap) d); reflexivity.
Qed.

Lemma process_session_data_offers (s : Session.t) :
  process_session_data s =
  Ok (fold_left merge_step (session_offers s) Dict.empty).
Proof.
  unfold process_session_data, session_offers.
  apply for_each_flat_map. intros d lap. apply lap_step_offer.
Qed.

Lemma lap_offer_counts (s : Session.t) (key : BestLapKey) (lap : Lap.t) :
  counts_for s key lap ->
  exists nm,
    lap_offer (driver_map (Session.leaderBoardLines s))
              (player_names (Session.leaderBoardLines s)) lap
    = [(key, Best.mk (Lap.laptime lap) (Lap.splits lap) nm)].
Proof.
  intros [Hr Hv]. unfold resolves in Hr. unfold lap_offer. rewrite Hr, Hv.
  destruct (names_resolve _ _ _ Hr) as [nm Hnm]. rewrite Hnm. now exists nm.
Qed.

Lemma lap_offer_inv (s : Session.t) (lap : Lap.t) (key : BestLapKey) (r : Best.t)
    (rest : list (BestLapKey * Best.t)) :
  lap_offer (driver_map (Session.leaderBoardLines s))
            (player_names (Session.leaderBoardLines s)) lap = (key, r) :: rest ->
  rest = [] /\ counts_for s key lap /\
  Best.laptime r = Lap.laptime lap /\ Best.splits r = Lap.splits lap /\
  Dict.get (fst key) (player_names (Session.leaderBoardLines s)) = Some (Best.name r).
Proof.
  unfold lap_offer, counts_for, resolves.
  destruct (Dict.get (Lap.carId lap, Lap.driverIndex lap) _) as [k|]; [|discriminate].
  destruct (Lap.isValidForBest lap); [|discriminate].
  destruct (Dict.get (fst k) _) as [nm|] eqn:Hnm; [|discriminate].
  intros [= -> <- <-]. simpl. auto.
Qed.

(** Splitting a [flat_map] whose pieces have at most one element. *)
Lemma flat_map_split {A B : Type} (f : A -> list B) (l : list A)
    (before after : list B) (x : B) :
  (forall a, (List.length (f a) <= 1)%nat) ->
  flat_map f l = before ++ x :: after ->
  exists l1 a l2, l = l1 ++ a :: l2 /\ f a = [x] /\
                  flat_map f l1 = before /\ flat_map f l2 = after.
Proof.
  intros Hone. revert before. induction l as [|a l IH]; intros before Heq.
  - destruct before; discriminate.
  - simpl in Heq. specialize (Hone a) as Ha.
    destruct (f a) as [|y [|z t]] eqn:Hfa; simpl in Ha; [| |lia].
    + simpl in Heq. destruct (IH before Heq) as [l1 [b [l2 [-> [Hb [H1 H2]]]]]].
      exists (a :: l1), b, l2. simpl. rewrite Hfa. simpl. auto.
    + simpl in Heq. destruct before as [|y' before]; simpl in Heq.
      * injection Heq as -> Hrest. exists [], a, l. simpl. auto.
      * injection Heq as -> Hrest.
        destruct (IH before Hrest) as [l1 [b [l2 [-> [Hb [H1 H2]]]]]].
        exists (a :: l1), b, l2. simpl. rewrite Hfa. simpl. rewrite H1. auto.
Qed.

Lemma lap_offer_length (dm : Dict.t (Z * Z) BestLapKey)
    (pn : Dict.t string (string * string)) (lap : Lap.t) :
  (List.length (lap_offer dm pn lap) <= 1)%nat.
Proof.
  unfold lap_offer. destruct (Dict.get _ dm); simpl; [|lia].
  destruct (Lap.isValidForBest lap); simpl; [|lia].
  destruct (Dict.get _ pn); simpl; lia.
Qed.

(** One step of either loop: the table changes only by a strictly faster
    record for the step's own key, or by a key that was absent. *)
Lemma merge_step_cases (d : BestLaps) (kv : BestLapKey * Best.t) :
  (merge_step d kv = d /\
   exists c, Dict.get (fst kv) d = Some c /\ Best.laptime c <= Best.laptime (snd kv)) \/
  (merge_step d kv = Dict.set (fst kv) (snd kv) d /\
   (Dict.get (fst kv) d = None \/
    exists c, Dict.get (fst kv) d = Some c /\ Best.laptime (snd kv) < Best.laptime c)).
Proof.
  unfold merge_step, improves.
  destruct (Dict.get (fst kv) d) as [c|] eqn:Hc.
  - destruct (Best.laptime (snd kv) <? Best.laptime c) eqn:Hlt.
    + right. split; [reflexivity|right]. exists c. split; [reflexivity|lia].
    + left. split; [reflexivity|]. exists c. split; [reflexivity|lia].
  - right. split; [reflexivity|now left].
Qed.

Lemma merge_step_NoDup (d : BestLaps) (kv : BestLapKey * Best.t) :
  NoDup (Dict.keys d) -> NoDup (Dict.keys (merge_step d kv)).
Proof.
  intros Hnd. unfold merge_step.
  destruct (improves _ _ d); [now apply dict_set_NoDup|exact Hnd].
Qed.

Lemma merge_fold_NoDup (offers : list (BestLapKey * Best.t)) (d : BestLaps) :
  NoDup (Dict.keys d) -> NoDup (Dict.keys (fold_left merge_step offers d)).
Proof.
  revert d. induction offers as [|kv offers IH]; intros d Hnd; simpl.
  - exact Hnd.
  - apply IH. now apply merge_step_NoDup.
Qed.

Lemma merge_fold_snoc (offers : list (BestLapKey * Best.t))
    (kv : BestLapKey * Best.t) (d : BestLaps) :
  fold_left merge_step (offers ++ [kv]) d =
  merge_step (fold_left merge_step offers d) kv.
Proof. now rewrite fold_left_app. Qed.

(** A key is in the table exactly when some offer named it. *)
Lemma merge_fold_absent (offers : list (BestLapKey * Best.t)) (key : BestLapKey) :
  Dict.get key (fold_left merge_step offers Dict.empty) = None <->
  ~ In key (map fst offers).
Proof.
  induction offers as [|kv offers IH] using rev_ind.
  - simpl. tauto.
  - rewrite merge_fold_snoc, map_app, in_app_iff. simpl.
    destruct (merge_step_cases (fold_left merge_step offers Dict.empty) kv)
      as [[-> [c [Hc _]]]|[-> _]].
    + rewrite IH. split; [|tauto]. intros Hn [Hi|[E|[]]]; [tauto|].
      subst key. apply IH in Hn. congruence.
    + destruct (eq_dec (fst kv) key) as [E|Hne].
      * subst key. rewrite dict_get_set_same. split; [discriminate|tauto].
      * rewrite dict_get_set_other by exact Hne. rewrite IH. tauto.
Qed.

Lemma first_fastest_bound (offers : list (BestLapKey * Best.t))
    (key : BestLapKey) (r r' : Best.t) :
  first_fastest Best.laptime offers key r -> In (key, r') offers ->
  Best.laptime r <= Best.laptime r'.
Proof.
  intros [before [after [-> [Hb Ha]]]] Hin.
  apply in_app_iff in Hin as [Hin|[E|Hin]].
  - specialize (Hb r' Hin). lia.
  - injection E as ->. lia.
  - exact (Ha r' Hin).
Qed.

(** The table holds, for each key, the first of the fastest offers. *)
Lemma merge_fold_first_fastest (offers : list (BestLapKey * Best.t))
    (key : BestLapKey) (r : Best.t) :
  Dict.get key (fold_left merge_step offers Dict.empty) = Some r ->
  first_fastest Best.laptime offers key r.
Proof.
  revert r. induction offers as [|kv offers IH] using rev_ind; intros r.
  - discriminate.
  - rewrite merge_fold_snoc.
    set (d := fold_left merge_step offers Dict.empty) in *.
    assert (Hextend : forall r0, first_fastest Best.laptime offers key r0 ->
              (fst kv = key -> Best.laptime r0 <= Best.laptime (snd kv)) ->
              first_fastest Best.laptime (offers ++ [kv]) key r0).
    { intros r0 [before [after [-> [Hb Ha]]]] Hkv.
      exists before, (after ++ [kv]). rewrite <- app_assoc. simpl.
      repeat split; [exact Hb|].
      intros r' Hin. apply in_app_iff in Hin as [Hin|[E|[]]]; [now apply Ha|].
      subst kv. now apply Hkv. }
    destruct (merge_step_cases d kv) as [[-> [c [Hc Hle]]]|[-> Hnew]].
    + intros Hg. apply Hextend; [now apply IH|].
      intros E. rewrite E in Hc. congruence.
    + destruct (eq_dec (fst kv) key) as [E|Hne].
      * subst key. rewrite dict_get_set_same. intros [= <-].
        exists offers, []. split; [now destruct kv|]. split; [|intros ? []].
        intros r' Hin. destruct Hnew as [Hnone|[c [Hc Hlt]]].
        -- apply merge_fold_absent in Hnone. exfalso. apply Hnone.
           change (fst kv) with (fst (fst kv, r')). now apply in_map.
        -- pose proof (first_fastest_bound offers (fst kv) c r' (IH c Hc) Hin). lia.
      * rewrite dict_get_set_other by exact Hne. intros Hg.
        apply Hextend; [now apply IH|]. intros E. contradiction.
Qed.

(** ** The session reducer *)

Lemma process_session_data_NoDup (s : Session.t) (d : BestLaps) :
  process_session_data s = Ok d -> NoDup (Dict.keys d).
Proof.
  rewrite process_session_data_offers. intros [= <-].
  apply merge_fold_NoDup. constructor.
Qed.

(** The record stored for a key comes from the first of the fastest valid
    laps that resolve to the key. *)
Lemma session_first_fastest (s : Session.t) (d : BestLaps)
    (key : BestLapKey) (r : Best.t) :
  process_session_data s = Ok d -> Dict.get key d = Some r ->
  exists l1 lap l2,
    Session.laps s = l1 ++ lap :: l2 /\ counts_for s key lap /\
    Best.laptime r = Lap.laptime lap /\ Best.splits r = Lap.splits lap /\
    Dict.get (fst key) (player_names (Session.leaderBoardLines s))
      = Some (Best.name r) /\
    (forall x, In x l1 -> counts_for s key x -> Lap.laptime lap < Lap.laptime x) /\
    (forall x, In x l2 -> counts_for s key x -> Lap.laptime lap <= Lap.laptime x).
Proof.
  rewrite process_session_data_offers. intros [= <-] Hg.
  apply merge_fold_first_fastest in Hg as [before [after [Heq [Hb Ha]]]].
  unfold session_offers in Heq.
  apply flat_map_split in Heq as [l1 [lap [l2 [Hl [Hlap [H1 H2]]]]]];
    [|intros a; apply lap_offer_length].
  apply lap_offer_inv in Hlap as [_ [Hc [Ht [Hs Hn]]]].
  exists l1, lap, l2. repeat split; try assumption; try apply Hc.
  - intros x Hx Hcx. destruct (lap_offer_counts s key x Hcx) as [nm Hox].
    rewrite <- Ht.
    apply (Hb (Best.mk (Lap.laptime x) (Lap.splits x) nm)).
    rewrite <- H1. apply in_flat_map. exists x. split; [exact Hx|].
    rewrite Hox. now left.
  - intros x Hx Hcx. destruct (lap_offer_counts s key x Hcx) as [nm Hox].
    rewrite <- Ht.
    apply (Ha (Best.mk (Lap.laptime x) (Lap.splits x) nm)).
    rewrite <- H2. apply in_flat_map. exists x. split; [exact Hx|].
    rewrite Hox. now left.
Qed.

Lemma flat_map_filter_nil {A B : Type} (f : A -> list B) (p : A -> bool)
    (l : list A) :
  (forall a, p a = false -> f a = []) ->
  flat_map f (filter p l) = flat_map f l.
Proof.
  intros Hp. induction l as [|a l IH]; simpl; [reflexivity|].
  destruct (p a) eqn:E; simpl; [now rewrite IH|].
  now rewrite (Hp a E), IH.
Qed.

Lemma session_offers_valid_only (laps : list Lap.t) (lb : list Line.t) :
  session_offers (Session.mk (filter Lap.isValidForBest laps) lb) =
  session_offers (Session.mk laps lb).
Proof.
  unfold session_offers. simpl. apply flat_map_filter_nil.
  intros lap Hv. unfold lap_offer. rewrite Hv.
  now destruct (Dict.get _ (driver_map lb)).
Qed.

(** C3.  [process_session_data] returns a mapping for every session, and
    the laptime of every entry is the minimum laptime among the session's
    laps that resolve to the entry's (playerId, carModel) key and are valid
    for best: it is the laptime of one such lap and no such lap is faster.
    Laps that are not valid never influence the result: any lap list with
    the same valid laps, in the same order, gives the same mapping. *)
Theorem session_entry_is_min_valid_lap (s : Session.t) :
  exists d,
    process_session_data s = Ok d /\
    (forall key r, In (key, r) (Dict.items d) ->
       (exists lap, In lap (Session.laps s) /\ counts_for s key lap /\
                    Lap.laptime lap = Best.laptime r) /\
       (forall lap, In lap (Session.laps s) -> counts_for s key lap ->
                    Best.laptime r <= Lap.laptime lap)) /\
    (forall laps',
       filter Lap.isValidForBest laps' =
       filter Lap.isValidForBest (Session.laps s) ->
       process_session_data (Session.mk laps' (Session.leaderBoardLines s))
       = Ok d).
Proof.
  exists (fold_left merge_step (session_offers s) Dict.empty).
  split; [apply process_session_data_offers|]. split.
  - intros key r Hin.
    pose proof (process_session_data_offers s) as Hs.
    pose proof (process_session_data_NoDup s _ Hs) as Hnd.
    apply (dict_In_get _ _ _ Hnd) in Hin.
    destruct (session_first_fastest s _ key r Hs Hin)
      as [l1 [lap [l2 [Hl [Hc [Ht [_ [_ [H1 H2]]]]]]]]].
    split.
    + exists lap. rewrite Hl. split; [|now split].
      apply in_app_iff. right. now left.
    + intros x Hx Hcx. rewrite Hl in Hx. rewrite Ht.
      apply in_app_iff in Hx as [Hx|[->|Hx]].
      * specialize (H1 x Hx Hcx). lia.
      * lia.
      * exact (H2 x Hx Hcx).
  - intros laps' Hf. rewrite process_session_data_offers. f_equal. f_equal.
    rewrite <- (session_offers_valid_only laps'), Hf.
    destruct s as [laps lb]. apply session_offers_valid_only.
Qed.

Lemma session_offers_skip (before after : list Lap.t) (lap : Lap.t)
    (lb : list Line.t) :
  Dict.get (Lap.carId lap, Lap.driverIndex lap) (driver_map lb) = None ->
  session_offers (Session.mk (before ++ lap :: after) lb) =
  session_offers (Session.mk (before ++ after) lb).
Proof.
  intros Hn. unfold session_offers. simpl. rewrite !flat_map_app. simpl.
  unfold lap_offer at 2. now rewrite Hn.
Qed.

(** C8.  A lap whose (carId, driverIndex) pair is not in the lookup built
    from the leaderboard is skipped without an error: the loop body leaves
    every table unchanged, the reducer returns a mapping, and it is the
    mapping of the session without that lap. *)
Theorem unresolved_lap_is_skipped (s : Session.t) (before after : list Lap.t)
    (lap : Lap.t) :
  Session.laps s = before ++ lap :: after ->
  Dict.get (Lap.carId lap, Lap.driverIndex lap)
           (driver_map (Session.leaderBoardLines s)) = None ->
  (forall best_laps,
      lap_step (driver_map (Session.leaderBoardLines s))
               (player_names (Session.leaderBoardLines s)) best_laps lap
      = Ok best_laps) /\
  exists d,
    process_session_data s = Ok d /\
    process_session_data
      (Session.mk (before ++ after) (Session.leaderBoardLines s)) = Ok d.
Proof.
  intros Hl Hn. split.
  - intros best_laps. unfold lap_step. now rewrite Hn.
  - exists (fold_left merge_step (session_offers s) Dict.empty).
    split; [apply process_session_data_offers|].
    rewrite process_session_data_offers. f_equal. f_equal.
    destruct s as [laps lb]. simpl in *. subst laps.
    symmetry. now apply session_offers_skip.
Qed.

(** The lap of car 9, driver index 3, in a session whose leaderboard lists
    car 7 only. *)
Lemma unresolved_lap_is_skipped_witness :
  (forall best_laps,
      lap_step (driver_map Sample.board) (player_names Sample.board)
               best_laps Sample.lapX = Ok best_laps) /\
  exists d,
    process_session_data Sample.sessionA = Ok d /\
    process_session_data
      (Session.mk ([Sample.lapA1; Sample.lapA2] ++ []) Sample.board) = Ok d.
Proof.
  apply (unresolved_lap_is_skipped Sample.sessionA
           [Sample.lapA1; Sample.lapA2] [] Sample.lapX).
  - reflexivity.
  - reflexivity.
Defined.

(** ** The cross-session merge *)

Lemma merge_step_lowers (d : BestLaps) (kv : BestLapKey * Best.t)
    (key : BestLapKey) (c : Best.t) :
  Dict.get key d = Some c ->
  exists c', Dict.get key (merge_step d kv) = Some c' /\
             Best.laptime c' <= Best.laptime c.
Proof.
  intros Hc. destruct (merge_step_cases d kv) as [[-> _]|[-> Hnew]].
  - exists c. split; [exact Hc|lia].
  - destruct (eq_dec (fst kv) key) as [E|Hne].
    + subst key. rewrite dict_get_set_same. exists (snd kv). split; [reflexivity|].
      destruct Hnew as [Hn|[c0 [Hc0 Hlt]]]; [congruence|].
      rewrite Hc in Hc0. injection Hc0 as <-. lia.
    + rewrite dict_get_set_other by exact Hne. exists c. split; [exact Hc|lia].
Qed.

Lemma merge_fold_lowers (offers : list (BestLapKey * Best.t)) (d : BestLaps)
    (key : BestLapKey) (c : Best.t) :
  Dict.get key d = Some c ->
  exists c', Dict.get key (fold_left merge_step offers d) = Some c' /\
             Best.laptime c' <= Best.laptime c.
Proof.
  revert d c. induction offers as [|kv offers IH]; intros d c Hc; simpl.
  - exists c. split; [exact Hc|lia].
  - destruct (merge_step_lowers d kv key c Hc) as [c1 [Hc1 Hle1]].
    destruct (IH _ c1 Hc1) as [c2 [Hc2 Hle2]].
    exists c2. split; [exact Hc2|lia].
Qed.

Lemma merge_step_covers (d : BestLaps) (kv : BestLapKey * Best.t) :
  exists c, Dict.get (fst kv) (merge_step d kv) = Some c /\
            Best.laptime c <= Best.laptime (snd kv).
Proof.
  destruct (merge_step_cases d kv) as [[-> [c [Hc Hle]]]|[-> _]].
  - now exists c.
  - exists (snd kv). rewrite dict_get_set_same. split; [reflexivity|lia].
Qed.

Lemma merge_fold_covers (offers : list (BestLapKey * Best.t)) (d : BestLaps)
    (kv : BestLapKey * Best.t) :
  In kv offers ->
  exists c, Dict.get (fst kv) (fold_left merge_step offers d) = Some c /\
            Best.laptime c <= Best.laptime (snd kv).
Proof.
  revert d. induction offers as [|x offers IH]; intros d; simpl; [tauto|].
  intros [->|Hin]; [|now apply IH].
  destruct (merge_step_covers d kv) as [c [Hc Hle]].
  destruct (merge_fold_lowers offers _ _ c Hc) as [c' [Hc' Hle']].
  exists c'. split; [exact Hc'|lia].
Qed.

Lemma merge_fold_noop (offers : list (BestLapKey * Best.t)) (d : BestLaps) :
  (forall kv, In kv offers ->
     exists c, Dict.get (fst kv) d = Some c /\
               Best.laptime c <= Best.laptime (snd kv)) ->
  fold_left merge_step offers d = d.
Proof.
  induction offers as [|kv offers IH]; intros Hall; simpl; [reflexivity|].
  assert (merge_step d kv = d) as ->.
  { destruct (Hall kv (or_introl eq_refl)) as [c [Hc Hle]].
    unfold merge_step, improves. rewrite Hc.
    destruct (Best.laptime (snd kv) <? Best.laptime c) eqn:E; [lia|reflexivity]. }
  apply IH. intros kv' Hin. apply Hall. now right.
Qed.

(** Merging the same session result a second time is the identity. *)
Lemma merge_session_idem (a d : BestLaps) :
  merge_session (merge_session a d) d = merge_session a d.
Proof.
  unfold merge_session, Dict.items. apply merge_fold_noop.
  intros kv Hin. now apply merge_fold_covers.
Qed.

(** Merging into the empty table a result without duplicate keys gives
    that result, in its order. *)
Lemma merge_fold_fresh (offers : list (BestLapKey * Best.t)) (a : BestLaps) :
  NoDup (Dict.keys a ++ map fst offers) ->
  fold_left merge_step offers a = a ++ offers.
Proof.
  revert a. induction offers as [|[k r] offers IH]; intros a Hnd; simpl.
  - now rewrite app_nil_r.
  - simpl in Hnd. pose proof (NoDup_remove_2 _ _ _ Hnd) as Hk.
    assert (Hka : ~ In k (Dict.keys a)) by (intros Hi; apply Hk, in_app_iff; now left).
    unfold merge_step, improves. simpl.
    rewrite (proj2 (dict_get_None_iff a k) Hka), dict_set_new by exact Hka.
    rewrite IH.
    + now rewrite <- app_assoc.
    + unfold Dict.keys in *. rewrite map_app, <- app_assoc. exact Hnd.
Qed.

Lemma merge_session_empty (d : BestLaps) :
  NoDup (Dict.keys d) -> merge_session Dict.empty d = d.
Proof.
  intros Hnd. unfold merge_session, Dict.items.
  now rewrite merge_fold_fresh.
Qed.

Lemma merge_sessions_concat (ds : list BestLaps) (a : BestLaps) :
  fold_left merge_session ds a = fold_left merge_step (List.concat ds) a.
Proof.
  revert a. induction ds as [|d ds IH]; intros a; simpl; [reflexivity|].
  rewrite fold_left_app. apply IH.
Qed.

(** ** The member loop *)

Lemma member_step_json (z : ZipFile) (st st' : Loop.t) (name : string) :
  is_json name = true -> member_step z st name = Ok st' ->
  exists s d, load_member z name = Ok s /\ process_session_data s = Ok d /\
              st' = Loop.mk (Some s)
                      (merge_session (Loop.aggregated_results st) d).
Proof.
  unfold member_step, is_json, load_member. intros -> Hst.
  destruct (zip_open z name) as [file|]; simpl in *; [|discriminate].
  destruct (json_load file) as [s|]; simpl in *; [|discriminate].
  destruct (process_session_data s) as [d|] eqn:Hd; simpl in *; [|discriminate].
  injection Hst as <-. now exists s, d.
Qed.

Lemma member_step_other (z : ZipFile) (st : Loop.t) (name : string) :
  is_json name = false ->
  member_step z st name =
  match Loop.session_data st with
  | None => Raise (UnboundLocalError "session_data")
  | Some data =>
      session_best_laps <- process_session_data data ;;
      Ok (Loop.mk (Some data)
            (merge_session (Loop.aggregated_results st) session_best_laps))
  end.
Proof. unfold member_step, is_json. now intros ->. Qed.

Lemma member_step_settled_other (z : ZipFile) (st : Loop.t) (name : string)
    (s : Session.t) :
  is_json name = false -> Loop.session_data st = Some s -> settled st ->
  member_step z st name = Ok st.
Proof.
  intros Hj Hs Hst. rewrite member_step_other by exact Hj.
  unfold settled in Hst. rewrite Hs in *. destruct Hst as [d [Hd Hm]].
  rewrite Hd. simpl. rewrite Hm. destruct st. simpl in *. now subst.
Qed.

(** What a completed run of the loop has computed: the merge, in archive
    order, of the reductions of the members with the JSON suffix. *)
Lemma member_loop_spec (z : ZipFile) (names : list string) (st0 st : Loop.t) :
  settled st0 ->
  for_each (member_step z) names st0 = Ok st ->
  settled st /\
  exists ds,
    Forall2 (reduces_to z) (filter is_json names) ds /\
    Loop.aggregated_results st
    = fold_left merge_session ds (Loop.aggregated_results st0).
Proof.
  revert st0. induction names as [|name names IH]; intros st0 Hst0; simpl.
  - intros [= <-]. split; [exact Hst0|]. exists []. split; [constructor|reflexivity].
  - destruct (member_step z st0 name) as [st1|] eqn:Hstep; simpl; [|discriminate].
    intros Hrest. destruct (is_json name) eqn:Hj.
    + destruct (member_step_json z st0 st1 name Hj Hstep) as [s [d [Hl [Hd ->]]]].
      assert (Hset1 : settled (Loop.mk (Some s)
                 (merge_session (Loop.aggregated_results st0) d))).
      { exists d. split; [exact Hd|apply merge_session_idem]. }
      destruct (IH _ Hset1 Hrest) as [Hset [ds [Hf Hagg]]].
      split; [exact Hset|]. exists (d :: ds). split.
      * constructor; [now exists s|exact Hf].
      * exact Hagg.
    + rewrite member_step_other in Hstep by exact Hj.
      destruct (Loop.session_data st0) as [s|] eqn:Hs; [|discriminate].
      assert (st1 = st0) as ->.
      { pose proof (member_step_settled_other z st0 name s Hj Hs Hst0) as Hsame.
        rewrite member_step_other, Hs in Hsame by exact Hj. congruence. }
      exact (IH st0 Hst0 Hrest).
Qed.

Lemma aggregate_loop_spec (z : ZipFile) (st : Loop.t) :
  aggregate_loop z = Ok st ->
  exists ds,
    Forall2 (reduces_to z) (json_names z) ds /\
    Loop.aggregated_results st = fold_left merge_step (List.concat ds) Dict.empty.
Proof.
  intros Hloop. destruct (member_loop_spec z (namelist z) Loop.init st I Hloop)
    as [_ [ds [Hf Hagg]]].
  exists ds. split; [exact Hf|]. now rewrite Hagg, merge_sessions_concat.
Qed.

Lemma aggregate_loop_NoDup (z : ZipFile) (st : Loop.t) :
  aggregate_loop z = Ok st -> NoDup (Dict.keys (Loop.aggregated_results st)).
Proof.
  intros Hloop. destruct (aggregate_loop_spec z st Hloop) as [ds [_ ->]].
  apply merge_fold_NoDup. constructor.
Qed.

(** A first member without the JSON suffix reads [session_data] unbound. *)
Lemma first_member_not_json (m : Member.t) (z : ZipFile) :
  is_json (Member.filename m) = false ->
  aggregate_results (m :: z) = Raise (UnboundLocalError "session_data").
Proof.
  intros Hj. unfold aggregate_results, aggregate_loop. simpl.
  now rewrite member_step_other by exact Hj.
Qed.

(** ** Ties: the first record seen wins *)

Lemma concat_split {A : Type} (ls : list (list A)) (before after : list A) (x : A) :
  List.concat ls = before ++ x :: after ->
  exists ls1 l ls2 b a,
    ls = ls1 ++ l :: ls2 /\ l = b ++ x :: a /\
    before = List.concat ls1 ++ b /\ after = a ++ List.concat ls2.
Proof.
  revert before. induction ls as [|l ls IH]; intros before Heq; simpl in Heq.
  - destruct before; discriminate.
  - assert (Hlater : forall m, List.concat ls = m ++ x :: after ->
              before = l ++ m ->
              exists ls1 l0 ls2 b a,
                l :: ls = ls1 ++ l0 :: ls2 /\ l0 = b ++ x :: a /\
                before = List.concat ls1 ++ b /\ after = a ++ List.concat ls2).
    { intros m Hm Hbefore.
      destruct (IH m Hm) as [ls1 [l0 [ls2 [b [a [Hls [Hl0 [Hm' Hafter]]]]]]]].
      exists (l :: ls1), l0, ls2, b, a. simpl.
      rewrite Hls, Hbefore, Hm', app_assoc. auto. }
    apply app_eq_app in Heq as [m [[Hl Hm]|[Hb Hm]]].
    + destruct m as [|x' m]; simpl in Hm.
      * apply (Hlater []); [now rewrite <- Hm|].
        now rewrite Hl, !app_nil_r.
      * injection Hm as <- Hafter.
        exists [], l, ls, before, m. simpl. auto.
    + now apply (Hlater m).
Qed.

Lemma Forall2_In_l {A B : Type} (R : A -> B -> Prop) (l : list A) (l' : list B)
    (x : A) :
  Forall2 R l l' -> In x l -> exists y, In y l' /\ R x y.
Proof.
  induction 1 as [|a b l l' HR _ IH]; simpl; [tauto|].
  intros [->|Hin].
  - exists b. auto.
  - destruct (IH Hin) as [y [Hy HRy]]. exists y. auto.
Qed.

Lemma reduces_to_get (z : ZipFile) (names : list string) (ds : list BestLaps)
    (name : string) (s : Session.t) (d : BestLaps) (key : BestLapKey) (r : Best.t) :
  Forall2 (reduces_to z) names ds -> In name names ->
  load_member z name = Ok s -> process_session_data s = Ok d ->
  Dict.get key d = Some r -> In (key, r) (List.concat ds).
Proof.
  intros Hf Hin Hl Hd Hg.
  destruct (Forall2_In_l _ _ _ _ Hf Hin) as [d' [Hd' [s' [Hl' Hs']]]].
  assert (s' = s) as -> by congruence. assert (d' = d) as -> by congruence.
  apply in_concat. exists d. split; [exact Hd'|now apply dict_get_In].
Qed.

(** Across the archive: the stored record is that of the first JSON member,
    in listed order, among those whose session holds the fastest record. *)
Lemma archive_first_fastest (z : ZipFile) (st : Loop.t)
    (key : BestLapKey) (r : Best.t) :
  aggregate_loop z = Ok st ->
  Dict.get key (Loop.aggregated_results st) = Some r ->
  exists n1 name n2 s d,
    json_names z = n1 ++ name :: n2 /\
    load_member z name = Ok s /\ process_session_data s = Ok d /\
    Dict.get key d = Some r /\
    (forall name' s' d' r',
        In name' n1 -> load_member z name' = Ok s' ->
        process_session_data s' = Ok d' -> Dict.get key d' = Some r' ->
        Best.laptime r < Best.laptime r') /\
    (forall name' s' d' r',
        In name' n2 -> load_member z name' = Ok s' ->
        process_session_data s' = Ok d' -> Dict.get key d' = Some r' ->
        Best.laptime r <= Best.laptime r').
Proof.
  intros Hloop Hg.
  destruct (aggregate_loop_spec z st Hloop) as [ds [Hf Hagg]].
  rewrite Hagg in Hg.
  apply merge_fold_first_fastest in Hg as [before [after [Heq [Hb Ha]]]].
  apply concat_split in Heq as [ds1 [d [ds2 [b [a [-> [Hd [-> ->]]]]]]]].
  apply Forall2_app_inv_r in Hf as [n1 [n2' [Hf1 [Hf2 Hnames]]]].
  inversion Hf2 as [|name d0 n2 ds2' [s [Hl Hs]] Hf3]; subst.
  exists n1, name, n2, s, (b ++ (key, r) :: a).
  split; [exact Hnames|]. split; [exact Hl|]. split; [exact Hs|]. split.
  - apply dict_In_get; [now apply (process_session_data_NoDup s)|].
    apply in_app_iff. right. now left.
  - split.
    + intros name' s' d' r' Hin Hl' Hs' Hg'. apply Hb.
      apply in_app_iff. left.
      exact (reduces_to_get z n1 ds1 name' s' d' key r' Hf1 Hin Hl' Hs' Hg').
    + intros name' s' d' r' Hin Hl' Hs' Hg'. apply Ha.
      apply in_app_iff. right.
      exact (reduces_to_get z n2 ds2 name' s' d' key r' Hf3 Hin Hl' Hs' Hg').
Qed.

Lemma lap_step_overwrite (dm : Dict.t (Z * Z) BestLapKey)
    (pn : Dict.t string (string * string)) (best_laps best_laps' : BestLaps)
    (lap : Lap.t) (key : BestLapKey) (r : Best.t) :
  lap_step dm pn best_laps lap = Ok best_laps' ->
  Dict.get key best_laps = Some r ->
  Dict.get key best_laps' = Some r \/
  (exists r', Dict.get key best_laps' = Some r' /\
              Best.laptime r' = Lap.laptime lap /\
              Lap.laptime lap < Best.laptime r).
Proof.
  unfold lap_step. intros Hstep Hg.
  destruct (Dict.get (Lap.carId lap, Lap.driverIndex lap) dm) as [k|];
    [|injection Hstep as <-; now left].
  destruct (Lap.isValidForBest lap && improves k (Lap.laptime lap) best_laps)
    eqn:Hcond; [|injection Hstep as <-; now left].
  unfold getitem_str in Hstep. destruct (Dict.get (fst k) pn) as [nm|];
    simpl in Hstep; [|discriminate].
  injection Hstep as <-. destruct (eq_dec k key) as [->|Hne].
  - right. rewrite dict_get_set_same. eexists. split; [reflexivity|].
    split; [reflexivity|].
    apply andb_true_iff in Hcond as [_ Himp]. unfold improves in Himp.
    rewrite Hg in Himp. lia.
  - left. now rewrite dict_get_set_other.
Qed.

Lemma merge_step_overwrite (aggregated : BestLaps) (kv : BestLapKey * Best.t)
    (key : BestLapKey) (r : Best.t) :
  Dict.get key aggregated = Some r ->
  Dict.get key (merge_step aggregated kv) = Some r \/
  (fst kv = key /\ Dict.get key (merge_step aggregated kv) = Some (snd kv) /\
   Best.laptime (snd kv) < Best.laptime r).
Proof.
  intros Hg. destruct (merge_step_cases aggregated kv) as [[-> _]|[-> Hnew]].
  - now left.
  - destruct (eq_dec (fst kv) key) as [E|Hne].
    + right. subst key. rewrite dict_get_set_same. repeat split.
      destruct Hnew as [Hn|[c [Hc Hlt]]]; [congruence|].
      rewrite Hg in Hc. injection Hc as <-. exact Hlt.
    + left. now rewrite dict_get_set_other.
Qed.

(** C7.  In both loops the record stored for a key is replaced only by a
    record of strictly smaller laptime: a step of the lap loop and a step
    of the merge loop leave a stored record as it is unless the incoming
    laptime is strictly smaller.  So the first record seen wins every tie:
    within a session the stored record is that of a valid lap before which
    every valid lap of the key is strictly slower and after which none is
    faster, and across the archive it is the record of a JSON member before
    which every member's record for the key is strictly slower and after
    which none is faster. *)
Theorem overwrite_only_when_strictly_faster :
  (forall dm pn best_laps best_laps' lap key r,
      lap_step dm pn best_laps lap = Ok best_laps' ->
      Dict.get key best_laps = Some r ->
      Dict.get key best_laps' = Some r \/
      (exists r', Dict.get key best_laps' = Some r' /\
                  Best.laptime r' = Lap.laptime lap /\
                  Lap.laptime lap < Best.laptime r)) /\
  (forall aggregated kv key r,
      Dict.get key aggregated = Some r ->
      Dict.get key (merge_step aggregated kv) = Some r \/
      (fst kv = key /\
       Dict.get key (merge_step aggregated kv) = Some (snd kv) /\
       Best.laptime (snd kv) < Best.laptime r)) /\
  (forall s d key r,
      process_session_data s = Ok d -> Dict.get key d = Some r ->
      exists l1 lap l2,
        Session.laps s = l1 ++ lap :: l2 /\ counts_for s key lap /\
        Best.laptime r = Lap.laptime lap /\ Best.splits r = Lap.splits lap /\
        (forall x, In x l1 -> counts_for s key x ->
                   Lap.laptime lap < Lap.laptime x) /\
        (forall x, In x l2 -> counts_for s key x ->
                   Lap.laptime lap <= Lap.laptime x)) /\
  (forall z st key r,
      aggregate_loop z = Ok st ->
      Dict.get key (Loop.aggregated_results st) = Some r ->
      exists n1 name n2 s d,
        json_names z = n1 ++ name :: n2 /\
        load_member z name = Ok s /\ process_session_data s = Ok d /\
        Dict.get key d = Some r /\
        (forall name' s' d' r',
            In name' n1 -> load_member z name' = Ok s' ->
            process_session_data s' = Ok d' -> Dict.get key d' = Some r' ->
            Best.laptime r < Best.laptime r') /\
        (forall name' s' d' r',
            In name' n2 -> load_member z name' = Ok s' ->
            process_session_data s' = Ok d' -> Dict.get key d' = Some r' ->
            Best.laptime r <= Best.laptime r')).
Proof.
  split; [exact lap_step_overwrite|].
  split; [exact merge_step_overwrite|]. split.
  - intros s d key r Hs Hg.
    destruct (session_first_fastest s d key r Hs Hg)
      as [l1 [lap [l2 [Hl [Hc [Ht [Hsp [_ [H1 H2]]]]]]]]].
    exists l1, lap, l2. repeat split; try assumption; apply Hc.
  - exact archive_first_fastest.
Qed.

(** The two tied laps of one session, and the same tie across two
    sessions: the stored splits are those of the first lap. *)
Lemma overwrite_only_when_strictly_faster_witness :
  (exists l1 lap l2,
      Session.laps Sample.tieA = l1 ++ lap :: l2 /\
      counts_for Sample.tieA ("P1"%string, 5) lap /\
      85000 = Lap.laptime lap /\ [28000; 28000; 29000] = Lap.splits lap /\
      (forall x, In x l1 -> counts_for Sample.tieA ("P1"%string, 5) x ->
                 Lap.laptime lap < Lap.laptime x) /\
      (forall x, In x l2 -> counts_for Sample.tieA ("P1"%string, 5) x ->
                 Lap.laptime lap <= Lap.laptime x)) /\
  (exists n1 name n2 s d,
      json_names Sample.tie_sessions = n1 ++ name :: n2 /\
      load_member Sample.tie_sessions name = Ok s /\
      process_session_data s = Ok d /\
      Dict.get ("P1"%string, 5) d
        = Some (Best.mk 85000 [28000; 28000; 29000]
                        ("Alice"%string, "Archer"%string)) /\
      (forall name' s' d' r',
          In name' n1 -> load_member Sample.tie_sessions name' = Ok s' ->
          process_session_data s' = Ok d' ->
          Dict.get ("P1"%string, 5) d' = Some r' -> 85000 < Best.laptime r') /\
      (forall name' s' d' r',
          In name' n2 -> load_member Sample.tie_sessions name' = Ok s' ->
          process_session_data s' = Ok d' ->
          Dict.get ("P1"%string, 5) d' = Some r' -> 85000 <= Best.laptime r')).
Proof.
  split.
  - apply (proj1 (proj2 (proj2 overwrite_only_when_strictly_faster))
             Sample.tieA
             [(("P1"%string, 5),
               Best.mk 85000 [28000; 28000; 29000]
                       ("Alice"%string, "Archer"%string))]
             ("P1"%string, 5)
             (Best.mk 85000 [28000; 28000; 29000]
                      ("Alice"%string, "Archer"%string))).
    + reflexivity.
    + reflexivity.
  - apply (proj2 (proj2 (proj2 overwrite_only_when_strictly_faster))
             Sample.tie_sessions
             (Loop.mk (Some Sample.tieB)
                [(("P1"%string, 5),
                  Best.mk 85000 [28000; 28000; 29000]
                          ("Alice"%string, "Archer"%string))])
             ("P1"%string, 5)
             (Best.mk 85000 [28000; 28000; 29000]
                      ("Alice"%string, "Archer"%string))).
    + reflexivity.
    + reflexivity.
Defined.

(** ** Members without the JSON suffix *)

(** C10.  There is an archive whose first listed member does not end in
    [.json], all of whose JSON members are well-formed session documents
    and whose remaining members aggregate without error, on which
    [aggregate_results] fails reading [session_data] before any
    assignment: the loop does not skip the member. *)
Theorem unbound_session_data_is_reachable :
  exists (first : Member.t) (rest : ZipFile),
    is_json (Member.filename first) = false /\
    (forall m, In m (first :: rest) -> is_json (Member.filename m) = true ->
               exists s, Member.contents m = SessionDoc s) /\
    (exists out, aggregate_results rest = Ok out) /\
    member_step (first :: rest) Loop.init (Member.filename first)
      = Raise (UnboundLocalError "session_data") /\
    aggregate_results (first :: rest)
      = Raise (UnboundLocalError "session_data").
Proof.
  exists (Member.mk "README.txt" NotASession),
         [Member.mk "a.json" (SessionDoc Sample.sessionA)].
  split; [reflexivity|]. split.
  - intros m [<-|[<-|[]]]; simpl; [discriminate|].
    intros _. now exists Sample.sessionA.
  - split; [eexists; reflexivity|]. split; [reflexivity|].
    now apply first_member_not_json.
Qed.

(** C1, at the archive [README.txt, a.json].  The member without the JSON
    suffix is not ignored: the run raises, while the archive of the JSON
    members alone gives a ranked row. *)
Theorem non_json_member_not_ignored :
  aggregate_results Sample.readme_first
    = Raise (UnboundLocalError "session_data") /\
  json_members Sample.readme_first
    = [Member.mk "a.json" (SessionDoc Sample.sessionA)] /\
  aggregate_results (json_members Sample.readme_first)
    = Ok [Entry.mk "P1" ("Alice"%string, "Archer"%string) 5 90000
                   [30000; 30000; 30000] 0].
Proof. repeat split. Qed.

(** ** The empty result *)

Lemma rank_empty : rank Dict.empty = Raise ValueError_min_empty.
Proof. reflexivity. Qed.

(** C2 as stated fails on the empty archive: the loop ends with the empty
    mapping and the run fails, but with the error of [min] itself. *)
Lemma empty_archive_fails_inside_min :
  aggregate_loop [] = Ok Loop.init /\
  Loop.aggregated_results Loop.init = Dict.empty /\
  aggregate_results [] = Raise ValueError_min_empty /\
  ~ fails_by_explicit_check [].
Proof.
  repeat split. intros [e [He Hne]]. apply Hne.
  change (aggregate_results []) with (@Raise (list Entry.t) ValueError_min_empty) in He.
  congruence.
Qed.

(** C2, amended.  When the member loop ends with an empty mapping, the run
    fails with the [ValueError] that [min] raises on an empty iterable
    (nothing checks emptiness before), the error reaches the caller, and
    the file system is left as it was: no output file is written. *)
Theorem empty_result_is_fatal (car_models : Z -> option string)
    (z : ZipFile) (st : Loop.t) (output : string) (fs : FileSystem) :
  aggregate_loop z = Ok st ->
  Loop.aggregated_results st = Dict.empty ->
  aggregate_results z = Raise ValueError_min_empty /\
  main car_models z output fs = (fs, Raise ValueError_min_empty).
Proof.
  intros Hloop Hempty.
  assert (Hagg : aggregate_results z = Raise ValueError_min_empty).
  { unfold aggregate_results. rewrite Hloop. simpl. now rewrite Hempty. }
  split; [exact Hagg|]. unfold main. now rewrite Hagg.
Qed.

(** An archive whose only session has no valid resolved lap. *)
Lemma empty_result_is_fatal_witness :
  aggregate_results Sample.only_invalid = Raise ValueError_min_empty /\
  main Sample.cars Sample.only_invalid "out.csv" []
    = ([], Raise ValueError_min_empty).
Proof.
  apply (empty_result_is_fatal Sample.cars Sample.only_invalid
           (Loop.mk (Some Sample.no_valid) Dict.empty) "out.csv" []).
  - reflexivity.
  - reflexivity.
Defined.

(** ** Ranking: [min] and [sorted] *)

Section MinSort.
Context {A : Type} (key : A -> Z).

Lemma min_from_In (best : A) (l : list A) : In (min_from key best l) (best :: l).
Proof.
  revert best. induction l as [|x l IH]; intros best; simpl.
  - now left.
  - destruct (IH (if key x <? key best then x else best)) as [E|Hin].
    + destruct (key x <? key best); rewrite <- E; auto.
    + auto.
Qed.

Lemma min_from_le (best : A) (l : list A) :
  forall x, In x (best :: l) -> key (min_from key best l) <= key x.
Proof.
  revert best. induction l as [|y l IH]; intros best x; simpl.
  - intros [->|[]]. lia.
  - intros Hin.
    assert (Hstep : key (min_from key (if key y <? key best then y else best) l)
                    <= key (if key y <? key best then y else best)).
    { apply IH. now left. }
    destruct Hin as [->|[->|Hin]].
    + destruct (key y <? key x) eqn:E; lia.
    + destruct (key x <? key best) eqn:E; lia.
    + apply IH. now right.
Qed.

Lemma insert_by_perm (x : A) (l : list A) : Permutation (insert_by key x l) (x :: l).
Proof.
  induction l as [|y l IH]; simpl; [reflexivity|].
  destruct (key x <=? key y); [reflexivity|].
  rewrite IH. apply perm_swap.
Qed.

Lemma sorted_perm (l : list A) : Permutation (sorted key l) l.
Proof.
  induction l as [|x l IH]; simpl; [reflexivity|].
  rewrite insert_by_perm. now constructor.
Qed.

Lemma insert_by_sorted (x : A) (l : list A) :
  StronglySorted (fun a b => key a <= key b) l ->
  StronglySorted (fun a b => key a <= key b) (insert_by key x l).
Proof.
  induction 1 as [|y l Hs IH Hall]; simpl.
  - constructor; constructor.
  - destruct (key x <=? key y) eqn:E.
    + constructor; [now constructor|]. constructor; [lia|].
      eapply Forall_impl; [|exact Hall]. simpl. intros a Ha. lia.
    + constructor; [exact IH|].
      apply (Permutation_Forall (x := x :: l)).
      * symmetry. apply insert_by_perm.
      * constructor; [lia|exact Hall].
Qed.

Lemma sorted_sorted (l : list A) :
  StronglySorted (fun a b => key a <= key b) (sorted key l).
Proof.
  induction l as [|x l IH]; simpl; [constructor|now apply insert_by_sorted].
Qed.

(** Stability: elements of equal key keep their relative order. *)
Lemma insert_by_stable (v : Z) (x : A) (l : list A) :
  filter (fun a => key a =? v) (insert_by key x l) =
  filter (fun a => key a =? v) (x :: l).
Proof.
  induction l as [|y l IH]; [reflexivity|].
  cbn [insert_by]. destruct (key x <=? key y) eqn:E; [reflexivity|].
  cbn [filter] in *. rewrite IH.
  destruct (key x =? v) eqn:Ex, (key y =? v) eqn:Ey; try reflexivity. lia.
Qed.

Lemma sorted_stable (v : Z) (l : list A) :
  filter (fun a => key a =? v) (sorted key l) = filter (fun a => key a =? v) l.
Proof.
  induction l as [|x l IH]; [reflexivity|].
  cbn [sorted fold_right]. rewrite insert_by_stable. cbn [filter].
  fold (sorted key l). now rewrite IH.
Qed.
End MinSort.

Lemma rank_spec (d : BestLaps) :
  d <> Dict.empty ->
  exists best_lap,
    rank d = Ok (sorted Entry.laptime (map (rank_entry best_lap) (Dict.items d))) /\
    (exists kv, In kv (Dict.items d) /\ Best.laptime (snd kv) = best_lap) /\
    (forall kv, In kv (Dict.items d) -> best_lap <= Best.laptime (snd kv)).
Proof.
  intros Hne. destruct d as [|kv0 d]; [now contradiction Hne|].
  exists (Best.laptime (snd (min_from (fun x => Best.laptime (snd x)) kv0 d))).
  split; [reflexivity|]. split.
  - eexists. split; [apply min_from_In|reflexivity].
  - intros kv Hin. now apply (min_from_le (fun x => Best.laptime (snd x))).
Qed.

(** C5.  When the member loop ends with a non-empty mapping,
    [aggregate_results] returns a sequence that is non-decreasing in
    laptime; there is a global minimum laptime, attained by a record of
    the mapping and below no record's laptime, such that every entry's gap
    is its laptime minus that minimum and is not negative; the first entry
    has gap 0.  The entries are those of the mapping, one per record. *)
Theorem ranked_output_sorted_with_gaps (z : ZipFile) (st : Loop.t) :
  aggregate_loop z = Ok st ->
  Loop.aggregated_results st <> Dict.empty ->
  exists out best_lap,
    aggregate_results z = Ok out /\
    StronglySorted by_laptime out /\
    (exists kv, In kv (Dict.items (Loop.aggregated_results st)) /\
                Best.laptime (snd kv) = best_lap) /\
    (forall kv, In kv (Dict.items (Loop.aggregated_results st)) ->
                best_lap <= Best.laptime (snd kv)) /\
    Forall (fun e => Entry.gap e = Entry.laptime e - best_lap /\
                     0 <= Entry.gap e) out /\
    (exists e rest, out = e :: rest /\ Entry.gap e = 0) /\
    Permutation out
      (map (rank_entry best_lap) (Dict.items (Loop.aggregated_results st))).
Proof.
  intros Hloop Hne.
  destruct (rank_spec _ Hne) as [best_lap [Hrank [Hmin Hle]]].
  set (rows := map (rank_entry best_lap)
                   (Dict.items (Loop.aggregated_results st))) in *.
  assert (Hperm : Permutation (sorted Entry.laptime rows) rows)
    by apply sorted_perm.
  assert (Hgaps : Forall (fun e => Entry.gap e = Entry.laptime e - best_lap /\
                                   0 <= Entry.gap e) rows).
  { apply Forall_forall. intros e He. apply in_map_iff in He as [kv [<- Hkv]].
    simpl. specialize (Hle kv Hkv). lia. }
  assert (Hsorted : StronglySorted by_laptime (sorted Entry.laptime rows))
    by apply sorted_sorted.
  exists (sorted Entry.laptime rows), best_lap.
  split; [unfold aggregate_results; rewrite Hloop; exact Hrank|].
  split; [exact Hsorted|]. split; [exact Hmin|]. split; [exact Hle|].
  assert (Hgaps' : Forall (fun e => Entry.gap e = Entry.laptime e - best_lap /\
                                    0 <= Entry.gap e) (sorted Entry.laptime rows)).
  { apply (Permutation_Forall (x := rows)); [now symmetry|exact Hgaps]. }
  split; [exact Hgaps'|]. split; [|exact Hperm].
  destruct Hmin as [kv [Hkv Hbest]].
  assert (Hfast : In (rank_entry best_lap kv) (sorted Entry.laptime rows)).
  { apply (Permutation_in (l := rows)); [now symmetry|]. now apply in_map. }
  destruct (sorted Entry.laptime rows) as [|e rest]; [destruct Hfast|].
  exists e, rest. split; [reflexivity|].
  inversion Hsorted as [|? ? _ Hall]; subst.
  inversion Hgaps' as [|? ? [Hg Hpos] _]; subst.
  destruct Hfast as [He|Hin].
  - rewrite He. simpl. lia.
  - rewrite Forall_forall in Hall. specialize (Hall _ Hin).
    unfold by_laptime in Hall. simpl in Hall. lia.
Qed.

Lemma ranked_output_sorted_with_gaps_witness :
  exists out best_lap,
    aggregate_results Sample.two_sessions = Ok out /\
    StronglySorted by_laptime out /\
    (exists kv,
        In kv [(("P1"%string, 5),
                Best.mk 85000 [28000; 28000; 29000]
                        ("Alice"%string, "Archer"%string));
               (("P2"%string, 5),
                Best.mk 86500 [28500; 29000; 29000]
                        ("Bob"%string, "Baker"%string))] /\
        Best.laptime (snd kv) = best_lap) /\
    (forall kv,
        In kv [(("P1"%string, 5),
                Best.mk 85000 [28000; 28000; 29000]
                        ("Alice"%string, "Archer"%string));
               (("P2"%string, 5),
                Best.mk 86500 [28500; 29000; 29000]
                        ("Bob"%string, "Baker"%string))] ->
        best_lap <= Best.laptime (snd kv)) /\
    Forall (fun e => Entry.gap e = Entry.laptime e - best_lap /\
                     0 <= Entry.gap e) out /\
    (exists e rest, out = e :: rest /\ Entry.gap e = 0) /\
    Permutation out
      (map (rank_entry best_lap)
           [(("P1"%string, 5),
             Best.mk 85000 [28000; 28000; 29000]
                     ("Alice"%string, "Archer"%string));
            (("P2"%string, 5),
             Best.mk 86500 [28500; 29000; 29000]
                     ("Bob"%string, "Baker"%string))]).
Proof.
  apply (ranked_output_sorted_with_gaps Sample.two_sessions
           (Loop.mk (Some Sample.sessionB)
              [(("P1"%string, 5),
                Best.mk 85000 [28000; 28000; 29000]
                        ("Alice"%string, "Archer"%string));
               (("P2"%string, 5),
                Best.mk 86500 [28500; 29000; 29000]
                        ("Bob"%string, "Baker"%string))])).
  - reflexivity.
  - discriminate.
Defined.

(** ** An archive of one session *)

Lemma zip_open_absent (z : ZipFile) (name : string) :
  (forall m, In m z -> Member.filename m <> name) ->
  zip_open z name = Raise (KeyError_str name).
Proof.
  induction z as [|m z IH]; intros Hall; simpl; [reflexivity|].
  rewrite IH by (intros m' Hm'; apply Hall; now right).
  destruct (string_dec name (Member.filename m)) as [E|_]; [|reflexivity].
  exfalso. apply (Hall m); [now left|now symmetry].
Qed.

Lemma zip_open_first (m : Member.t) (rest : ZipFile) :
  (forall m', In m' rest -> Member.filename m' <> Member.filename m) ->
  zip_open (m :: rest) (Member.filename m) = Ok (Member.contents m).
Proof.
  intros Hall. simpl. rewrite zip_open_absent by exact Hall.
  destruct (string_dec (Member.filename m) (Member.filename m)); congruence.
Qed.

Lemma for_each_settled (z : ZipFile) (names : list string) (st : Loop.t)
    (s : Session.t) :
  Loop.session_data st = Some s -> settled st ->
  Forall (fun n => is_json n = false) names ->
  for_each (member_step z) names st = Ok st.
Proof.
  intros Hs Hst Hall. induction Hall as [|n names Hn _ IH]; simpl; [reflexivity|].
  now rewrite (member_step_settled_other z st n s Hn Hs Hst).
Qed.

Lemma single_session_loop (name : string) (s : Session.t) (rest : ZipFile)
    (d : BestLaps) :
  is_json name = true ->
  Forall (fun m => is_json (Member.filename m) = false) rest ->
  process_session_data s = Ok d ->
  aggregate_loop (Member.mk name (SessionDoc s) :: rest)
  = Ok (Loop.mk (Some s) d).
Proof.
  intros Hj Hrest Hd. unfold aggregate_loop. simpl.
  assert (Hstep : member_step (Member.mk name (SessionDoc s) :: rest)
                    Loop.init name = Ok (Loop.mk (Some s) d)).
  { unfold member_step. fold (is_json name). rewrite Hj.
    change name with (Member.filename (Member.mk name (SessionDoc s))) at 2.
    rewrite zip_open_first.
    - simpl. rewrite Hd. simpl.
      now rewrite (merge_session_empty d (process_session_data_NoDup s d Hd)).
    - intros m' Hm' E. rewrite Forall_forall in Hrest.
      specialize (Hrest m' Hm'). simpl in E. congruence. }
  rewrite Hstep. simpl. apply (for_each_settled _ _ _ s); [reflexivity| |].
  - exists d. split; [exact Hd|]. simpl.
    pose proof (merge_session_idem Dict.empty d) as Hidem.
    now rewrite (merge_session_empty d (process_session_data_NoDup s d Hd))
      in Hidem.
  - apply Forall_forall. intros n Hn. apply in_map_iff in Hn as [m [<- Hm]].
    rewrite Forall_forall in Hrest. now apply Hrest.
Qed.

Lemma dict_get_perm {K V : Type} `{EqDec K} (l l' : Dict.t K V) (k : K) :
  Permutation l l' -> NoDup (Dict.keys l) -> Dict.get k l = Dict.get k l'.
Proof.
  intros Hp Hnd.
  assert (Hnd' : NoDup (Dict.keys l')).
  { apply (Permutation_NoDup (l := Dict.keys l)); [|exact Hnd].
    now apply Permutation_map. }
  destruct (Dict.get k l) as [v|] eqn:E.
  - symmetry. apply dict_In_get; [exact Hnd'|].
    apply (Permutation_in _ Hp). now apply dict_get_In.
  - destruct (Dict.get k l') as [v'|] eqn:E'; [|reflexivity].
    apply dict_get_In in E'. apply (Permutation_in _ (Permutation_sym Hp)) in E'.
    apply (dict_In_get _ _ _ Hnd) in E'. congruence.
Qed.

Lemma rank_entry_back (best_lap : Z) (d : BestLaps) :
  map (fun e => (entry_key e, entry_record e)) (map (rank_entry best_lap) d) = d.
Proof.
  induction d as [|[[pid model] [t sp nm]] d IH]; simpl; [reflexivity|].
  now rewrite IH.
Qed.

Lemma rank_agrees (d : BestLaps) :
  NoDup (Dict.keys d) -> d <> Dict.empty ->
  exists out, rank d = Ok out /\ forall key, entry_get key out = Dict.get key d.
Proof.
  intros Hnd Hne. destruct (rank_spec d Hne) as [best_lap [Hrank _]].
  eexists. split; [exact Hrank|]. intros key. unfold entry_get, Dict.items.
  symmetry. rewrite <- (rank_entry_back best_lap d) at 1.
  apply dict_get_perm.
  - apply Permutation_map. symmetry. apply sorted_perm.
  - now rewrite rank_entry_back.
Qed.

(** C4 as stated fails on the archive whose single session has no valid
    resolved lap: the direct reduction returns the empty mapping, the
    aggregation raises. *)
Lemma single_session_without_valid_lap :
  process_session_data Sample.no_valid = Ok Dict.empty /\
  aggregate_results Sample.only_invalid = Raise ValueError_min_empty /\
  ~ single_session_agrees Sample.only_invalid Sample.no_valid.
Proof.
  split; [reflexivity|]. split; [reflexivity|].
  intros [d [out [_ [Hagg _]]]].
  change (aggregate_results Sample.only_invalid)
    with (@Raise (list Entry.t) ValueError_min_empty) in Hagg.
  discriminate.
Qed.

(** C4, amended.  For an archive whose first member is its one JSON member,
    a session that reduces to a non-empty mapping, the member loop ends
    with exactly the mapping of the direct reduction (the merge is a
    no-op), and [aggregate_results] returns rows that agree with it key by
    key in laptime, splits and name. *)
Theorem single_session_archive (name : string) (s : Session.t) (rest : ZipFile)
    (d : BestLaps) :
  is_json name = true ->
  Forall (fun m => is_json (Member.filename m) = false) rest ->
  process_session_data s = Ok d ->
  d <> Dict.empty ->
  aggregate_loop (Member.mk name (SessionDoc s) :: rest)
    = Ok (Loop.mk (Some s) d) /\
  single_session_agrees (Member.mk name (SessionDoc s) :: rest) s.
Proof.
  intros Hj Hrest Hd Hne.
  pose proof (single_session_loop name s rest d Hj Hrest Hd) as Hloop.
  split; [exact Hloop|].
  destruct (rank_agrees d (process_session_data_NoDup s d Hd) Hne)
    as [out [Hrank Hsame]].
  exists d, out. split; [exact Hd|]. split; [|exact Hsame].
  unfold aggregate_results. rewrite Hloop. exact Hrank.
Qed.

Lemma single_session_archive_witness :
  aggregate_loop (Member.mk "a.json" (SessionDoc Sample.sessionA)
                  :: [Member.mk "README.txt" NotASession])
    = Ok (Loop.mk (Some Sample.sessionA)
            [(("P1"%string, 5),
              Best.mk 90000 [30000; 30000; 30000]
                      ("Alice"%string, "Archer"%string))]) /\
  single_session_agrees
    (Member.mk "a.json" (SessionDoc Sample.sessionA)
     :: [Member.mk "README.txt" NotASession]) Sample.sessionA.
Proof.
  apply (single_session_archive "a.json" Sample.sessionA
           [Member.mk "README.txt" NotASession]
           [(("P1"%string, 5),
             Best.mk 90000 [30000; 30000; 30000]
                     ("Alice"%string, "Archer"%string))]).
  - reflexivity.
  - repeat constructor.
  - reflexivity.
  - discriminate.
Defined.

(** ** Formatting *)

Lemma string_length_append (s1 s2 : string) :
  String.length (String.append s1 s2) = (String.length s1 + String.length s2)%nat.
Proof. induction s1 as [|c s1 IH]; simpl; [reflexivity|now rewrite IH]. Qed.

Lemma all_digits_append (s1 s2 : string) :
  all_digits (String.append s1 s2) = all_digits s1 && all_digits s2.
Proof.
  induction s1 as [|c s1 IH]; simpl; [reflexivity|].
  now rewrite IH, andb_assoc.
Qed.

Lemma parse_from_append (acc : Z) (s1 s2 : string) :
  parse_from acc (String.append s1 s2) = parse_from (parse_from acc s1) s2.
Proof. revert acc. induction s1 as [|c s1 IH]; intros acc; simpl; auto. Qed.

Lemma digit_char_value (d : Z) :
  0 <= d < 10 ->
  Z.of_nat (nat_of_ascii (digit_char d)) - 48 = d /\ is_digit (digit_char d) = true.
Proof.
  intros Hd. unfold digit_char, is_digit.
  rewrite nat_ascii_embedding by lia. split; [lia|].
  apply andb_true_iff. split; apply Nat.leb_le; lia.
Qed.

Lemma decimal_fuel_indep (f1 f2 : nat) (n : Z) :
  0 <= n -> n < 2 ^ Z.of_nat (S f1) -> n < 2 ^ Z.of_nat (S f2) ->
  decimal_fuel (S f1) n = decimal_fuel (S f2) n.
Proof.
  revert f2 n. induction f1 as [|f1 IH]; intros f2 n Hn H1 H2.
  - change (2 ^ Z.of_nat 1) with 2 in H1. cbn [decimal_fuel].
    destruct (n <? 10) eqn:E; [reflexivity|lia].
  - destruct f2 as [|f2].
    + change (2 ^ Z.of_nat 1) with 2 in H2. cbn [decimal_fuel].
      destruct (n <? 10) eqn:E; [reflexivity|lia].
    + cbn [decimal_fuel]. destruct (n <? 10) eqn:E; [reflexivity|].
      f_equal. rewrite Nat2Z.inj_succ, Z.pow_succ_r in H1, H2 by lia.
      apply IH.
      * apply Z.div_pos; lia.
      * apply Z.div_lt_upper_bound; lia.
      * apply Z.div_lt_upper_bound; lia.
Qed.

Lemma decimal_bound (n : Z) :
  0 <= n -> n < 2 ^ Z.of_nat (S (Z.to_nat (Z.log2 n))).
Proof.
  intros Hn. rewrite Nat2Z.inj_succ, Z2Nat.id by apply Z.log2_nonneg.
  destruct (Z.eq_dec n 0) as [->|Hz]; [reflexivity|].
  apply Z.log2_spec. lia.
Qed.

Lemma decimal_small (n : Z) :
  0 <= n < 10 -> decimal n = String (digit_char n) EmptyString.
Proof.
  intros Hn. unfold decimal. cbn [decimal_fuel].
  destruct (n <? 10) eqn:E; [reflexivity|lia].
Qed.

Lemma decimal_step (n : Z) :
  10 <= n ->
  decimal n = String.append (decimal (n / 10))
                (String (digit_char (n mod 10)) EmptyString).
Proof.
  intros Hn. unfold decimal at 1. cbn [decimal_fuel].
  destruct (n <? 10) eqn:E; [lia|]. f_equal.
  assert (Hlog : 3 <= Z.log2 n) by (apply Z.log2_le_pow2; simpl; lia).
  destruct (Z.to_nat (Z.log2 n)) as [|k] eqn:Hk; [lia|].
  unfold decimal. apply decimal_fuel_indep.
  - apply Z.div_pos; lia.
  - pose proof (decimal_bound n ltac:(lia)) as Hb.
    rewrite Hk, (Nat2Z.inj_succ (S k)), Z.pow_succ_r in Hb by lia.
    apply Z.div_lt_upper_bound; lia.
  - apply decimal_bound. apply Z.div_pos; lia.
Qed.

Lemma decimal_digits (n : Z) :
  0 <= n -> all_digits (decimal n) = true /\ parse_decimal (decimal n) = n.
Proof.
  intros Hn. revert Hn. pattern n. apply (well_founded_induction (Z.lt_wf 0)).
  clear n. intros n IH Hn. destruct (Z_lt_le_dec n 10) as [Hs|Hb].
  - rewrite decimal_small by lia.
    destruct (digit_char_value n ltac:(lia)) as [Hv Hd].
    unfold parse_decimal. cbn [all_digits parse_from]. rewrite Hd, Hv. auto.
  - rewrite decimal_step by lia.
    assert (Hq : 0 <= n / 10 < n).
    { split; [apply Z.div_pos; lia|apply Z.div_lt; lia]. }
    destruct (IH (n / 10) Hq (proj1 Hq)) as [Hall Hparse].
    destruct (digit_char_value (n mod 10) (Z.mod_pos_bound n 10 ltac:(lia)))
      as [Hv Hd].
    unfold parse_decimal in *.
    rewrite all_digits_append, parse_from_append, Hall, Hparse.
    cbn [all_digits parse_from]. rewrite Hd, Hv. split; [reflexivity|].
    rewrite (Z.div_mod n 10) at 3 by lia. lia.
Qed.

Lemma decimal_length (n : Z) :
  0 <= n ->
  (1 <= String.length (decimal n))%nat /\
  (n < 10 -> String.length (decimal n) = 1%nat) /\
  (10 <= n < 100 -> String.length (decimal n) = 2%nat) /\
  (100 <= n < 1000 -> String.length (decimal n) = 3%nat) /\
  (100 <= n -> (3 <= String.length (decimal n))%nat).
Proof.
  intros Hn.
  assert (Hone : forall k, 0 <= k < 10 -> String.length (decimal k) = 1%nat).
  { intros k Hk. now rewrite decimal_small. }
  assert (Hpos : forall k, 0 <= k -> (1 <= String.length (decimal k))%nat).
  { intros k Hk. destruct (Z_lt_le_dec k 10).
    - rewrite Hone; lia.
    - rewrite decimal_step, string_length_append by lia. cbn [String.length]. lia. }
  assert (Htwo : forall k, 10 <= k < 100 -> String.length (decimal k) = 2%nat).
  { intros k Hk. rewrite decimal_step, string_length_append by lia.
    rewrite Hone; [reflexivity|].
    split; [apply Z.div_pos; lia|apply Z.div_lt_upper_bound; lia]. }
  assert (Hdiv : forall k, 100 <= k -> 10 <= k / 10).
  { intros k Hk. apply Z.div_le_lower_bound; lia. }
  repeat split.
  - now apply Hpos.
  - intros Hs. apply Hone. lia.
  - exact (Htwo n).
  - intros Hk. rewrite decimal_step, string_length_append by lia.
    rewrite Htwo; [reflexivity|].
    split; [now apply Hdiv|apply Z.div_lt_upper_bound; lia].
  - intros Hk. rewrite decimal_step, string_length_append by lia.
    assert (10 <= n / 10) as Hq by now apply Hdiv.
    rewrite (decimal_step (n / 10)), string_length_append by exact Hq.
    specialize (Hpos (n / 10 / 10) ltac:(apply Z.div_pos; lia)).
    cbn [String.length]. lia.
Qed.

Lemma zeros_facts (k : nat) (s : string) :
  String.length (String.append (zeros k) s) = (k + String.length s)%nat /\
  all_digits (String.append (zeros k) s) = all_digits s /\
  parse_decimal (String.append (zeros k) s) = parse_decimal s.
Proof.
  induction k as [|k [IHl [IHd IHp]]]; simpl; [auto|].
  rewrite IHl, IHd. repeat split. exact IHp.
Qed.

Lemma zfill_facts (width : nat) (s : string) :
  String.length (zfill width s) = Nat.max width (String.length s) /\
  all_digits (zfill width s) = all_digits s /\
  parse_decimal (zfill width s) = parse_decimal s.
Proof.
  unfold zfill.
  destruct (zeros_facts (width - String.length s) s) as [Hl [Hd Hp]].
  rewrite Hl, Hd, Hp. repeat split. lia.
Qed.

Lemma format_int_zero_pad_nonneg (width : nat) (n : Z) :
  0 <= n -> format_int_zero_pad width n = zfill width (decimal n).
Proof.
  intros Hn. unfold format_int_zero_pad.
  destruct (n <? 0) eqn:E; [lia|reflexivity].
Qed.

(** A rendered non-negative field: its digits, its value and its width. *)
Lemma format_field (width : nat) (n : Z) :
  0 <= n ->
  all_digits (format_int_zero_pad width n) = true /\
  parse_decimal (format_int_zero_pad width n) = n /\
  String.length (format_int_zero_pad width n)
  = Nat.max width (String.length (decimal n)).
Proof.
  intros Hn. rewrite format_int_zero_pad_nonneg by exact Hn.
  destruct (zfill_facts width (decimal n)) as [Hl [Hd Hp]].
  destruct (decimal_digits n Hn) as [Hall Hparse].
  rewrite Hl, Hd, Hp. auto.
Qed.

(** C6.  For every non-negative millisecond value [ms_to_time_format]
    gives minutes, a colon, seconds, a dot and milliseconds, each in
    decimal digits with the values [ms / 60000], [ms mod 60000 / 1000] and
    [ms mod 1000], which add up to the input again.  Seconds take exactly
    two characters and milliseconds exactly three; minutes take two
    characters below 100 minutes and at least three from 100 minutes on,
    with no digit dropped.  61234 gives 01:01.234, 0 gives 00:00.000, and a
    gap of 1500 is formatted as 1.500. *)
Theorem ms_to_time_format_layout :
  (forall ms, 0 <= ms ->
     exists mm ss mmm,
       ms_to_time_format ms = time_text mm ss mmm /\
       all_digits mm = true /\ all_digits ss = true /\ all_digits mmm = true /\
       parse_decimal mm = ms / 60000 /\
       parse_decimal ss = ms mod 60000 / 1000 /\
       parse_decimal mmm = ms mod 1000 /\
       parse_decimal mm * 60000 + parse_decimal ss * 1000 + parse_decimal mmm
       = ms /\
       String.length ss = 2%nat /\ String.length mmm = 3%nat /\
       (2 <= String.length mm)%nat /\
       (ms < 6000000 -> String.length mm = 2%nat) /\
       (6000000 <= ms -> (3 <= String.length mm)%nat)) /\
  ms_to_time_format 61234 = "01:01.234"%string /\
  ms_to_time_format 0 = "00:00.000"%string /\
  format_gap 1500 = Ok "1.500"%string.
Proof.
  split; [|repeat split].
  intros ms Hms.
  set (minutes := ms / 60000). set (seconds := ms mod 60000 / 1000).
  set (millis := ms mod 1000).
  assert (Hmin : 0 <= minutes) by (apply Z.div_pos; lia).
  assert (Hsec : 0 <= seconds < 60).
  { unfold seconds. pose proof (Z.mod_pos_bound ms 60000 ltac:(lia)).
    split; [apply Z.div_pos; lia|apply Z.div_lt_upper_bound; lia]. }
  assert (Hmil : 0 <= millis < 1000) by (apply Z.mod_pos_bound; lia).
  destruct (format_field 2 minutes Hmin) as [Hd1 [Hp1 Hl1]].
  destruct (format_field 2 seconds (proj1 Hsec)) as [Hd2 [Hp2 Hl2]].
  destruct (format_field 3 millis (proj1 Hmil)) as [Hd3 [Hp3 Hl3]].
  destruct (decimal_length minutes Hmin) as [Hm1 [Hm2 [Hm3 [_ Hm5]]]].
  destruct (decimal_length seconds (proj1 Hsec)) as [_ [Hs2 [Hs3 _]]].
  destruct (decimal_length millis (proj1 Hmil)) as [_ [Ht2 [Ht3 [Ht4 _]]]].
  exists (format_int_zero_pad 2 minutes), (format_int_zero_pad 2 seconds),
         (format_int_zero_pad 3 millis).
  split; [reflexivity|]. rewrite Hp1, Hp2, Hp3, Hl1, Hl2, Hl3.
  repeat split; try assumption.
  - unfold minutes, seconds, millis.
    Z.div_mod_to_equations. lia.
  - destruct (Z_lt_le_dec seconds 10); [rewrite Hs2|rewrite Hs3]; lia.
  - destruct (Z_lt_le_dec millis 10); [rewrite Ht2; lia|].
    destruct (Z_lt_le_dec millis 100); [rewrite Ht3|rewrite Ht4]; lia.
  - lia.
  - intros Hlt. assert (minutes < 100)
      by (apply Z.div_lt_upper_bound; lia).
    destruct (Z_lt_le_dec minutes 10); [rewrite Hm2|rewrite Hm3]; lia.
  - intros Hge. assert (100 <= minutes)
      by (apply Z.div_le_lower_bound; lia).
    specialize (Hm5 ltac:(lia)). lia.
Qed.

(** One hundred and one minutes: the minutes field grows to three digits. *)
Lemma ms_to_time_format_layout_witness :
  exists mm ss mmm,
    ms_to_time_format 6061234 = time_text mm ss mmm /\
    all_digits mm = true /\ all_digits ss = true /\ all_digits mmm = true /\
    parse_decimal mm = 6061234 / 60000 /\
    parse_decimal ss = 6061234 mod 60000 / 1000 /\
    parse_decimal mmm = 6061234 mod 1000 /\
    parse_decimal mm * 60000 + parse_decimal ss * 1000 + parse_decimal mmm
    = 6061234 /\
    String.length ss = 2%nat /\ String.length mmm = 3%nat /\
    (2 <= String.length mm)%nat /\
    (6061234 < 6000000 -> String.length mm = 2%nat) /\
    (6000000 <= 6061234 -> (3 <= String.length mm)%nat).
Proof.
  apply (proj1 ms_to_time_format_layout 6061234). lia.
Defined.

Lemma gap_check_below_3000 :
  forallb gap_check (seq 0 (Z.to_nat 3000)) = true.
Proof. vm_compute. reflexivity. Qed.

(** Below three seconds the float division and the [.3f] rendering give
    the gap's thousandths exactly. *)
Lemma format_gap_exact (gap : Z) :
  0 <= gap < 3000 -> format_gap gap = Ok (gap_text gap).
Proof.
  intros Hg.
  assert (Hin : In (Z.to_nat gap) (seq 0 (Z.to_nat 3000)))
    by (apply in_seq; lia).
  pose proof (proj1 (forallb_forall gap_check (seq 0 (Z.to_nat 3000)))
                gap_check_below_3000 (Z.to_nat gap) Hin) as Hall.
  unfold gap_check in Hall. rewrite Z2Nat.id in Hall by lia.
  destruct (format_gap gap) as [s|e]; [|discriminate].
  apply String.eqb_eq in Hall. now subst.
Qed.

(** * Further properties of the code *)

(** ** The session reducer: which keys, which names, which order *)

Lemma session_offers_key (s : Session.t) (key : BestLapKey) :
  In key (map fst (session_offers s)) <->
  exists lap, In lap (Session.laps s) /\ counts_for s key lap.
Proof.
  unfold session_offers. split.
  - intros Hin. apply in_map_iff in Hin as [[k r] [Hk Hin]]. simpl in Hk. subst k.
    apply in_flat_map in Hin as [lap [Hlap Hin]].
    destruct (lap_offer _ _ lap) as [|[k0 r0] rest] eqn:Ho; [destruct Hin|].
    pose proof (lap_offer_inv s lap k0 r0 rest Ho) as [-> [Hc _]].
    destruct Hin as [E|[]]. injection E as -> _. now exists lap.
  - intros [lap [Hlap Hc]]. destruct (lap_offer_counts s key lap Hc) as [nm Ho].
    apply in_map_iff. eexists (key, _). split; [reflexivity|].
    apply in_flat_map. exists lap. split; [exact Hlap|]. rewrite Ho. now left.
Qed.

Lemma merge_fold_key (offers : list (BestLapKey * Best.t)) (key : BestLapKey) :
  In key (Dict.keys (fold_left merge_step offers Dict.empty)) <->
  In key (map fst offers).
Proof.
  pose proof (merge_fold_absent offers key) as Habs.
  pose proof (dict_get_None_iff (fold_left merge_step offers Dict.empty) key) as Hk.
  destruct (in_dec eq_dec key (map fst offers)) as [Hi|Hn].
  - split; [auto|]. intros _.
    destruct (in_dec eq_dec key
                (Dict.keys (fold_left merge_step offers Dict.empty)))
      as [Hi'|Hn']; [exact Hi'|].
    exfalso. apply Hk in Hn'. apply Habs in Hn'. contradiction.
  - split; [|tauto]. intros Hi'. exfalso.
    apply Habs in Hn. apply Hk in Hn. contradiction.
Qed.

(** X1.  The mapping of [process_session_data] has no key twice, and a key
    is in it exactly when some lap of the session resolves to the key and
    is valid for best. *)
Theorem session_keys_are_the_valid_resolved (s : Session.t) (d : BestLaps)
    (key : BestLapKey) :
  process_session_data s = Ok d ->
  NoDup (Dict.keys d) /\
  (In key (Dict.keys d) <->
   exists lap, In lap (Session.laps s) /\ counts_for s key lap).
Proof.
  intros Hs. split; [exact (process_session_data_NoDup s d Hs)|].
  rewrite process_session_data_offers in Hs. injection Hs as <-.
  rewrite merge_fold_key. apply session_offers_key.
Qed.

Lemma session_keys_are_the_valid_resolved_witness :
  NoDup (Dict.keys More.bestB) /\
  (In ("P2"%string, 5) (Dict.keys More.bestB) <->
   exists lap, In lap (Session.laps Sample.sessionB) /\
               counts_for Sample.sessionB ("P2"%string, 5) lap).
Proof.
  apply (session_keys_are_the_valid_resolved Sample.sessionB More.bestB).
  reflexivity.
Defined.

(** X2.  The name stored in a record of [process_session_data] is the
    entry of [player_names] for the playerId of the record's key, and it is
    the first and last name of a leaderboard driver with that playerId. *)
Theorem session_record_name_from_leaderboard (s : Session.t) (d : BestLaps)
    (key : BestLapKey) (r : Best.t) :
  process_session_data s = Ok d -> Dict.get key d = Some r ->
  Dict.get (fst key) (player_names (Session.leaderBoardLines s))
    = Some (Best.name r) /\
  exists entry driver,
    In entry (Session.leaderBoardLines s) /\
    In driver (Car.drivers (Line.car entry)) /\
    Driver.playerId driver = fst key /\
    Best.name r = (Driver.firstName driver, Driver.lastName driver).
Proof.
  intros Hs Hg.
  destruct (session_first_fastest s d key r Hs Hg)
    as [_ [_ [_ [_ [_ [_ [_ [Hname _]]]]]]]].
  split; [exact Hname|].
  apply dict_of_items_In in Hname. apply in_flat_map in Hname as [e [He Hin]].
  apply in_map_iff in Hin as [drv [Heq Hd]]. injection Heq as Hp Hn.
  exists e, drv. auto.
Qed.

Lemma session_record_name_from_leaderboard_witness :
  Dict.get (fst ("P2"%string, 5))
           (player_names (Session.leaderBoardLines Sample.sessionB))
    = Some (Best.name (Best.mk 86500 [28500; 29000; 29000]
                               ("Bob"%string, "Baker"%string))) /\
  exists entry driver,
    In entry (Session.leaderBoardLines Sample.sessionB) /\
    In driver (Car.drivers (Line.car entry)) /\
    Driver.playerId driver = fst ("P2"%string, 5) /\
    Best.name (Best.mk 86500 [28500; 29000; 29000]
                       ("Bob"%string, "Baker"%string))
    = (Driver.firstName driver, Driver.lastName driver).
Proof.
  apply (session_record_name_from_leaderboard Sample.sessionB More.bestB).
  - reflexivity.
  - reflexivity.
Defined.

Lemma merge_step_keys (d : BestLaps) (kv : BestLapKey * Best.t) :
  Dict.keys (merge_step d kv) =
  if in_dec eq_dec (fst kv) (Dict.keys d) then Dict.keys d
  else Dict.keys d ++ [fst kv].
Proof.
  destruct (merge_step_cases d kv) as [[-> [c [Hc _]]]|[-> _]].
  - destruct (in_dec eq_dec (fst kv) (Dict.keys d)) as [_|Hn]; [reflexivity|].
    apply dict_get_None_iff in Hn. congruence.
  - apply dict_keys_set.
Qed.

Lemma merge_fold_keys_first_seen (offers : list (BestLapKey * Best.t)) :
  Dict.keys (fold_left merge_step offers Dict.empty)
  = first_seen (map fst offers).
Proof.
  unfold first_seen. induction offers as [|kv offers IH] using rev_ind.
  - reflexivity.
  - rewrite merge_fold_snoc, merge_step_keys, map_app, rev_app_distr. simpl.
    rewrite IH.
    destruct (in_dec eq_dec (fst kv) (rev (nodup eq_dec (rev (map fst offers)))))
      as [Hi|Hn];
    destruct (in_dec eq_dec (fst kv) (rev (map fst offers))) as [Hi'|Hn'];
      try reflexivity; exfalso.
    + apply Hn'. rewrite <- in_rev in Hi. now apply nodup_In in Hi.
    + apply Hn. rewrite <- in_rev. now apply nodup_In.
Qed.

(** X3.  The keys of the mapping of [process_session_data] stand in the
    order in which their first valid resolved lap occurs in the lap list. *)
Theorem session_keys_in_first_lap_order (s : Session.t) (d : BestLaps) :
  process_session_data s = Ok d ->
  Dict.keys d = first_seen (map fst (session_offers s)).
Proof.
  rewrite process_session_data_offers. intros [= <-].
  apply merge_fold_keys_first_seen.
Qed.

Lemma session_keys_in_first_lap_order_witness :
  Dict.keys More.bestB = first_seen (map fst (session_offers Sample.sessionB)).
Proof.
  apply (session_keys_in_first_lap_order Sample.sessionB More.bestB).
  reflexivity.
Defined.

(** ** The merge: repeated and reordered sessions *)

(** X4.  Merging the best laps of a session into the table a second time,
    with any other sessions merged in between, changes nothing: the table
    already holds, for each of its keys, a record at least as fast. *)
Theorem merging_a_session_again_is_noop (a d : BestLaps) (between : list BestLaps) :
  merge_session
    (fold_left merge_session between (merge_session a d)) d
  = fold_left merge_session between (merge_session a d).
Proof.
  unfold merge_session at 1. unfold Dict.items. apply merge_fold_noop.
  intros kv Hin.
  destruct (merge_fold_covers d a kv Hin) as [c [Hc Hle]].
  rewrite merge_sessions_concat.
  destruct (merge_fold_lowers (List.concat between) _ _ c Hc) as [c' [Hc' Hle']].
  exists c'. split; [exact Hc'|lia].
Qed.

Lemma first_fastest_In {R : Type} (time : R -> Z)
    (offers : list (BestLapKey * R)) (key : BestLapKey) (r : R) :
  first_fastest time offers key r -> In (key, r) offers.
Proof.
  intros [before [after [-> _]]]. apply in_app_iff. right. now left.
Qed.

Lemma merge_fold_laptime_same_offers (o o' : list (BestLapKey * Best.t))
    (key : BestLapKey) :
  (forall x, In x o <-> In x o') ->
  option_map Best.laptime (Dict.get key (fold_left merge_step o Dict.empty)) =
  option_map Best.laptime (Dict.get key (fold_left merge_step o' Dict.empty)).
Proof.
  intros Hsame.
  assert (Hkeys : In key (map fst o) <-> In key (map fst o')).
  { split; intros Hin; apply in_map_iff in Hin as [x [Hx Hin]];
      apply in_map_iff; exists x; split; try assumption; now apply Hsame. }
  destruct (Dict.get key (fold_left merge_step o Dict.empty)) as [r|] eqn:E;
  destruct (Dict.get key (fold_left merge_step o' Dict.empty)) as [r'|] eqn:E'.
  - apply merge_fold_first_fastest in E, E'.
    pose proof (first_fastest_In _ _ _ _ E) as Hr.
    pose proof (first_fastest_In _ _ _ _ E') as Hr'.
    apply Hsame in Hr. apply Hsame in Hr'.
    pose proof (first_fastest_bound o key r r' E Hr').
    pose proof (first_fastest_bound o' key r' r E' Hr).
    simpl. f_equal. lia.
  - exfalso. apply merge_fold_absent in E'. apply E', Hkeys.
    apply merge_fold_first_fastest, first_fastest_In in E.
    change key with (fst (key, r)). now apply in_map.
  - exfalso. apply merge_fold_absent in E. apply E, Hkeys.
    apply merge_fold_first_fastest, first_fastest_In in E'.
    change key with (fst (key, r')). now apply in_map.
  - reflexivity.
Qed.

(** X5.  The laptime the merged table holds for a key does not depend on
    the order in which the sessions are merged: any rearrangement of the
    session results gives the same keys and the same laptime per key. *)
Theorem merged_laptime_ignores_session_order (ds ds' : list BestLaps)
    (key : BestLapKey) :
  Permutation ds ds' ->
  option_map Best.laptime
    (Dict.get key (fold_left merge_session ds Dict.empty)) =
  option_map Best.laptime
    (Dict.get key (fold_left merge_session ds' Dict.empty)).
Proof.
  intros Hp. rewrite !merge_sessions_concat.
  apply merge_fold_laptime_same_offers. intros x. rewrite !in_concat.
  split; intros [d [Hd Hx]]; exists d; split; try assumption.
  - now apply (Permutation_in _ Hp).
  - now apply (Permutation_in _ (Permutation_sym Hp)).
Qed.

Lemma merged_laptime_ignores_session_order_witness :
  option_map Best.laptime
    (Dict.get ("P1"%string, 5)
       (fold_left merge_session [More.bestA; More.bestB] Dict.empty)) =
  option_map Best.laptime
    (Dict.get ("P1"%string, 5)
       (fold_left merge_session [More.bestB; More.bestA] Dict.empty)).
Proof.
  apply (merged_laptime_ignores_session_order
           [More.bestA; More.bestB] [More.bestB; More.bestA]).
  apply perm_swap.
Defined.

(** ** The member loop: which archives aggregate *)

Lemma zip_open_error (z : ZipFile) (name : string) (e : exn) :
  zip_open z name = Raise e -> e = KeyError_str name.
Proof.
  induction z as [|m z IH]; simpl.
  - now intros [= <-].
  - destruct (zip_open z name) as [p|e0]; [discriminate|].
    destruct (string_dec name (Member.filename m)); [discriminate|].
    now intros [= <-].
Qed.

Lemma zip_open_json_members (z : ZipFile) (name : string) :
  is_json name = true -> zip_open (json_members z) name = zip_open z name.
Proof.
  intros Hj. induction z as [|m z IH]; [reflexivity|].
  unfold json_members in *. cbn [filter].
  destruct (is_json (Member.filename m)) eqn:Hm.
  - cbn [zip_open]. now rewrite IH.
  - rewrite IH. cbn [zip_open].
    destruct (zip_open z name) as [p|e] eqn:Ho; [reflexivity|].
    destruct (string_dec name (Member.filename m)) as [E|_]; [congruence|].
    now rewrite (zip_open_error z name e Ho).
Qed.

Lemma member_step_json_members (z : ZipFile) (st : Loop.t) (name : string) :
  is_json name = true ->
  member_step (json_members z) st name = member_step z st name.
Proof.
  intros Hj. unfold member_step. fold (is_json name). rewrite Hj.
  now rewrite zip_open_json_members.
Qed.

Lemma member_step_json_settled (z : ZipFile) (st st' : Loop.t) (name : string) :
  is_json name = true -> member_step z st name = Ok st' ->
  settled st' /\ exists s, Loop.session_data st' = Some s.
Proof.
  intros Hj Hstep.
  destruct (member_step_json z st st' name Hj Hstep) as [s [d [_ [Hd ->]]]].
  split; [|now exists s]. exists d. split; [exact Hd|apply merge_session_idem].
Qed.

Lemma member_loop_skips_others (z : ZipFile) (names : list string)
    (st : Loop.t) (s : Session.t) :
  Loop.session_data st = Some s -> settled st ->
  for_each (member_step z) names st =
  for_each (member_step (json_members z)) (filter is_json names) st.
Proof.
  revert st s. induction names as [|name names IH]; intros st s Hs Hst;
    [reflexivity|].
  cbn [filter]. destruct (is_json name) eqn:Hj; cbn [for_each].
  - rewrite member_step_json_members by exact Hj.
    destruct (member_step z st name) as [st1|e] eqn:Hstep; [|reflexivity].
    destruct (member_step_json_settled z st st1 name Hj Hstep) as [Hst1 [s1 Hs1]].
    simpl. exact (IH st1 s1 Hs1 Hst1).
  - rewrite (member_step_settled_other z st name s Hj Hs Hst). simpl.
    exact (IH st s Hs Hst).
Qed.

Lemma namelist_json_members (z : ZipFile) :
  namelist (json_members z) = filter is_json (namelist z).
Proof.
  unfold namelist, json_members. induction z as [|m z IH]; [reflexivity|].
  simpl. destruct (is_json (Member.filename m)); simpl; now rewrite IH.
Qed.

(** X6.  When the first listed member has the JSON suffix, the members
    without it have no effect: [aggregate_results] gives the same rows, or
    the same error, as on the archive of the JSON members alone. *)
Theorem members_after_first_json_are_ignored (m : Member.t) (rest : ZipFile) :
  is_json (Member.filename m) = true ->
  aggregate_results (m :: rest) = aggregate_results (json_members (m :: rest)).
Proof.
  intros Hj. unfold aggregate_results. f_equal. unfold aggregate_loop.
  rewrite namelist_json_members.
  change (namelist (m :: rest)) with (Member.filename m :: namelist rest).
  cbn [filter]. rewrite Hj. cbn [for_each].
  rewrite member_step_json_members by exact Hj.
  destruct (member_step (m :: rest) Loop.init (Member.filename m))
    as [st1|e] eqn:Hstep; [|reflexivity].
  destruct (member_step_json_settled _ _ _ _ Hj Hstep) as [Hst1 [s1 Hs1]].
  simpl. exact (member_loop_skips_others (m :: rest) _ st1 s1 Hs1 Hst1).
Qed.

Lemma members_after_first_json_are_ignored_witness :
  aggregate_results
    (Member.mk "a.json" (SessionDoc Sample.sessionA)
     :: [Member.mk "notes.txt" NotASession;
         Member.mk "b.json" (SessionDoc Sample.sessionB);
         Member.mk "img/" NotASession])
  = aggregate_results
      (json_members
         (Member.mk "a.json" (SessionDoc Sample.sessionA)
          :: [Member.mk "notes.txt" NotASession;
              Member.mk "b.json" (SessionDoc Sample.sessionB);
              Member.mk "img/" NotASession])).
Proof.
  apply (members_after_first_json_are_ignored
           (Member.mk "a.json" (SessionDoc Sample.sessionA))).
  reflexivity.
Defined.

Lemma aggregate_results_inv (z : ZipFile) (out : list Entry.t) :
  aggregate_results z = Ok out ->
  exists st best_lap,
    aggregate_loop z = Ok st /\
    Loop.aggregated_results st <> Dict.empty /\
    out = sorted Entry.laptime
            (map (rank_entry best_lap) (Dict.items (Loop.aggregated_results st))) /\
    (exists kv, In kv (Dict.items (Loop.aggregated_results st)) /\
                Best.laptime (snd kv) = best_lap) /\
    (forall kv, In kv (Dict.items (Loop.aggregated_results st)) ->
                best_lap <= Best.laptime (snd kv)).
Proof.
  unfold aggregate_results. destruct (aggregate_loop z) as [st|e]; [|discriminate].
  simpl. intros Hrank.
  assert (Hne : Loop.aggregated_results st <> Dict.empty).
  { intros E. rewrite E in Hrank. discriminate. }
  destruct (rank_spec _ Hne) as [best_lap [Hr [Hmin Hle]]].
  exists st, best_lap. repeat split; try assumption. congruence.
Qed.

Lemma Forall2_In_r {A B : Type} (R : A -> B -> Prop) (l : list A) (l' : list B)
    (y : B) :
  Forall2 R l l' -> In y l' -> exists x, In x l /\ R x y.
Proof.
  induction 1 as [|a b l l' HR _ IH]; simpl; [tauto|].
  intros [->|Hin].
  - exists a. auto.
  - destruct (IH Hin) as [x [Hx HRx]]. exists x. auto.
Qed.

Lemma member_step_json_ok (z : ZipFile) (st : Loop.t) (name : string)
    (s : Session.t) :
  is_json name = true -> load_member z name = Ok s ->
  exists st', member_step z st name = Ok st' /\
              Loop.session_data st' = Some s /\ settled st'.
Proof.
  intros Hj Hl. unfold member_step. fold (is_json name). rewrite Hj.
  unfold load_member in Hl.
  destruct (zip_open z name) as [file|]; simpl in *; [|discriminate].
  rewrite Hl. simpl. rewrite process_session_data_offers. simpl.
  eexists. split; [reflexivity|]. split; [reflexivity|].
  eexists. split; [apply process_session_data_offers|]. apply merge_session_idem.
Qed.

Lemma member_loop_total (z : ZipFile) (names : list string) (st : Loop.t) :
  settled st ->
  (Loop.session_data st = None ->
   match names with [] => True | n :: _ => is_json n = true end) ->
  (forall name, In name (filter is_json names) ->
                exists s, load_member z name = Ok s) ->
  exists st', for_each (member_step z) names st = Ok st'.
Proof.
  revert st. induction names as [|name names IH]; intros st Hst Hfirst Hload.
  - now exists st.
  - cbn [for_each]. cbn [filter] in Hload. destruct (is_json name) eqn:Hj.
    + destruct (Hload name (or_introl eq_refl)) as [s Hs].
      destruct (member_step_json_ok z st name s Hj Hs) as [st1 [-> [Hs1 Hst1]]].
      simpl. apply IH; [exact Hst1|congruence|].
      intros n Hn. apply Hload. now right.
    + destruct (Loop.session_data st) as [s|] eqn:Hs.
      * rewrite (member_step_settled_other z st name s Hj Hs Hst). simpl.
        apply IH; [exact Hst|congruence|exact Hload].
      * specialize (Hfirst eq_refl). simpl in Hfirst. congruence.
Qed.

(** X7.  Whatever follows it, a first member without the JSON suffix makes
    [aggregate_results] raise the unbound-variable error for
    [session_data], and the script then leaves the file system as it was. *)
Theorem leading_other_member_aborts (car_models : Z -> option string)
    (m : Member.t) (z : ZipFile) (output : string) (fs : FileSystem) :
  is_json (Member.filename m) = false ->
  aggregate_results (m :: z) = Raise (UnboundLocalError "session_data") /\
  main car_models (m :: z) output fs
    = (fs, Raise (UnboundLocalError "session_data")).
Proof.
  intros Hj. pose proof (first_member_not_json m z Hj) as Hagg.
  split; [exact Hagg|]. unfold main. now rewrite Hagg.
Qed.

Lemma leading_other_member_aborts_witness :
  aggregate_results
    (Member.mk "README.txt" NotASession :: Sample.two_sessions)
    = Raise (UnboundLocalError "session_data") /\
  main Sample.cars (Member.mk "README.txt" NotASession :: Sample.two_sessions)
       "out.csv" More.old_report
    = (More.old_report, Raise (UnboundLocalError "session_data")).
Proof.
  apply (leading_other_member_aborts Sample.cars
           (Member.mk "README.txt" NotASession) Sample.two_sessions
           "out.csv" More.old_report).
  reflexivity.
Defined.

(** X8.  [aggregate_results] returns rows exactly when the archive's first
    member has the JSON suffix, every member with the suffix opens as a
    session document, and some such session has a lap that resolves
    through its leaderboard and is valid for best. *)
Theorem aggregate_results_succeeds_iff (z : ZipFile) :
  (exists out, aggregate_results z = Ok out) <->
  (exists m rest, z = m :: rest /\ is_json (Member.filename m) = true) /\
  (forall name, In name (json_names z) -> exists s, load_member z name = Ok s) /\
  (exists name s lap key,
      In name (json_names z) /\ load_member z name = Ok s /\
      In lap (Session.laps s) /\ counts_for s key lap).
Proof.
  split.
  - intros [out Hout].
    destruct (aggregate_results_inv z out Hout) as [st [b [Hloop [Hne _]]]].
    destruct (aggregate_loop_spec z st Hloop) as [ds [Hf Hagg]].
    split; [|split].
    + destruct z as [|m rest].
      * exfalso. apply Hne. unfold aggregate_loop in Hloop. simpl in Hloop.
        now injection Hloop as <-.
      * exists m, rest. split; [reflexivity|].
        destruct (is_json (Member.filename m)) eqn:Hj; [reflexivity|].
        rewrite (first_member_not_json m rest Hj) in Hout. discriminate.
    + intros name Hin.
      destruct (Forall2_In_l _ _ _ _ Hf Hin) as [d [_ [s [Hs _]]]]. now exists s.
    + destruct (Loop.aggregated_results st) as [|[key r] agg] eqn:Eagg;
        [now contradiction Hne|].
      assert (Hk : In key (Dict.keys (fold_left merge_step (List.concat ds)
                                                Dict.empty))).
      { rewrite <- Hagg. now left. }
      apply (proj1 (merge_fold_key _ _)) in Hk.
      apply in_map_iff in Hk as [[k r0] [Hk0 Hin]].
      simpl in Hk0. subst k. apply in_concat in Hin as [d [Hd Hin]].
      destruct (Forall2_In_r _ _ _ _ Hf Hd) as [name [Hname [s [Hl Hs]]]].
      assert (Hkd : In key (Dict.keys d)).
      { change key with (fst (key, r0)). now apply in_map. }
      rewrite process_session_data_offers in Hs. injection Hs as <-.
      apply (proj1 (merge_fold_key _ _)) in Hkd.
      apply (proj1 (session_offers_key _ _)) in Hkd as [lap [Hlap Hc]].
      now exists name, s, lap, key.
  - intros [[m [rest [-> Hj]]] [Hload [name [s [lap [key [Hname [Hl [Hlap Hc]]]]]]]]].
    destruct (member_loop_total (m :: rest) (namelist (m :: rest)) Loop.init I)
      as [st Hloop]; [intros _; exact Hj|exact Hload|].
    fold (aggregate_loop (m :: rest)) in Hloop.
    destruct (aggregate_loop_spec _ st Hloop) as [ds [Hf Hagg]].
    assert (Hne : Loop.aggregated_results st <> Dict.empty).
    { assert (Hk : In key (map fst (session_offers s)))
        by (apply session_offers_key; now exists lap).
      apply (proj2 (merge_fold_key _ _)) in Hk.
      apply in_map_iff in Hk as [[k r] [Hk0 Hin]]. simpl in Hk0. subst k.
      destruct (Forall2_In_l _ _ _ _ Hf Hname) as [d [Hd [s' [Hl' Hs']]]].
      assert (s' = s) as -> by congruence.
      rewrite process_session_data_offers in Hs'. injection Hs' as <-.
      assert (Hkc : In key (map fst (List.concat ds))).
      { change key with (fst (key, r)). apply in_map, in_concat.
        eexists. split; [exact Hd|exact Hin]. }
      apply (proj2 (merge_fold_key _ _)) in Hkc. rewrite <- Hagg in Hkc.
      intros E. rewrite E in Hkc. destruct Hkc. }
    destruct (rank_spec _ Hne) as [b [Hrank _]].
    eexists. unfold aggregate_results. rewrite Hloop. exact Hrank.
Qed.

(** ** The ranked rows *)

Lemma filter_map_commute {A B : Type} (f : A -> B) (p : B -> bool) (l : list A) :
  filter p (map f l) = map f (filter (fun a => p (f a)) l).
Proof.
  induction l as [|a l IH]; [reflexivity|]. simpl.
  destruct (p (f a)); simpl; now rewrite IH.
Qed.

Lemma rank_entry_key (best_lap : Z) (d : BestLaps) :
  map entry_key (map (rank_entry best_lap) d) = Dict.keys d.
Proof.
  unfold Dict.keys. rewrite map_map. apply map_ext. now intros [[pid model] r].
Qed.

(** X9.  The rows [aggregate_results] returns are one per key of the merged
    mapping: no (player_id, car_model) pair has two rows, there are as many
    rows as keys, and the row of a key carries the laptime, splits and name
    the mapping holds for it. *)
Theorem one_row_per_player_and_car (z : ZipFile) (out : list Entry.t) :
  aggregate_results z = Ok out ->
  exists st,
    aggregate_loop z = Ok st /\
    NoDup (map entry_key out) /\
    List.length out = List.length (Dict.items (Loop.aggregated_results st)) /\
    forall key, entry_get key out = Dict.get key (Loop.aggregated_results st).
Proof.
  intros Hout.
  destruct (aggregate_results_inv z out Hout) as [st [b [Hloop [Hne [-> _]]]]].
  pose proof (aggregate_loop_NoDup z st Hloop) as Hnd.
  pose proof (sorted_perm Entry.laptime
                (map (rank_entry b) (Dict.items (Loop.aggregated_results st))))
    as Hp.
  exists st. split; [exact Hloop|]. split; [|split].
  - apply (Permutation_NoDup (l := Dict.keys (Loop.aggregated_results st)));
      [|exact Hnd].
    rewrite <- (rank_entry_key b). apply Permutation_map. now symmetry.
  - rewrite (Permutation_length Hp). apply length_map.
  - intros key. unfold entry_get, Dict.items. symmetry.
    rewrite <- (rank_entry_back b (Loop.aggregated_results st)) at 1.
    apply dict_get_perm.
    + apply Permutation_map. now symmetry.
    + now rewrite rank_entry_back.
Qed.

Lemma one_row_per_player_and_car_witness :
  exists st,
    aggregate_loop Sample.two_sessions = Ok st /\
    NoDup (map entry_key
             [Entry.mk "P1" ("Alice"%string, "Archer"%string) 5 85000
                       [28000; 28000; 29000] 0;
              Entry.mk "P2" ("Bob"%string, "Baker"%string) 5 86500
                       [28500; 29000; 29000] 1500]) /\
    List.length
      [Entry.mk "P1" ("Alice"%string, "Archer"%string) 5 85000
                [28000; 28000; 29000] 0;
       Entry.mk "P2" ("Bob"%string, "Baker"%string) 5 86500
                [28500; 29000; 29000] 1500]
    = List.length (Dict.items (Loop.aggregated_results st)) /\
    forall key,
      entry_get key
        [Entry.mk "P1" ("Alice"%string, "Archer"%string) 5 85000
                  [28000; 28000; 29000] 0;
         Entry.mk "P2" ("Bob"%string, "Baker"%string) 5 86500
                  [28500; 29000; 29000] 1500]
      = Dict.get key (Loop.aggregated_results st).
Proof.
  apply (one_row_per_player_and_car Sample.two_sessions).
  reflexivity.
Defined.

(** X10.  Every record of every session with the JSON suffix is covered by
    the returned rows: there is a row for its key, and that row's laptime
    is not above the record's. *)
Theorem every_session_record_is_covered (z : ZipFile) (out : list Entry.t)
    (name : string) (s : Session.t) (d : BestLaps) (key : BestLapKey)
    (r : Best.t) :
  aggregate_results z = Ok out ->
  In name (json_names z) -> load_member z name = Ok s ->
  process_session_data s = Ok d -> Dict.get key d = Some r ->
  exists row, In row out /\ entry_key row = key /\
              Entry.laptime row <= Best.laptime r.
Proof.
  intros Hout Hname Hl Hs Hg.
  destruct (aggregate_results_inv z out Hout) as [st [b [Hloop [_ [-> _]]]]].
  destruct (aggregate_loop_spec z st Hloop) as [ds [Hf Hagg]].
  pose proof (reduces_to_get z _ ds name s d key r Hf Hname Hl Hs Hg) as Hin.
  destruct (merge_fold_covers (List.concat ds) Dict.empty (key, r) Hin)
    as [c [Hc Hle]].
  simpl in Hc, Hle. rewrite <- Hagg in Hc. apply dict_get_In in Hc.
  exists (rank_entry b (key, c)). split; [|split].
  - apply (Permutation_in (l := map (rank_entry b)
                                   (Dict.items (Loop.aggregated_results st)))).
    + symmetry. apply sorted_perm.
    + now apply in_map.
  - now destruct key.
  - exact Hle.
Qed.

Lemma every_session_record_is_covered_witness :
  exists row,
    In row [Entry.mk "P1" ("Alice"%string, "Archer"%string) 5 85000
                     [28000; 28000; 29000] 0;
            Entry.mk "P2" ("Bob"%string, "Baker"%string) 5 86500
                     [28500; 29000; 29000] 1500] /\
    entry_key row = ("P1"%string, 5) /\
    Entry.laptime row
    <= Best.laptime (Best.mk 90000 [30000; 30000; 30000]
                             ("Alice"%string, "Archer"%string)).
Proof.
  apply (every_session_record_is_covered Sample.two_sessions _
           "a.json" Sample.sessionA More.bestA).
  - reflexivity.
  - simpl. now left.
  - reflexivity.
  - reflexivity.
  - reflexivity.
Defined.

(** X11.  Rows of equal laptime come in the order in which their keys
    entered the merged mapping: for every laptime, the rows with it list
    the same keys, in the same order, as the mapping's records with it. *)
Theorem tied_rows_keep_mapping_order (z : ZipFile) (out : list Entry.t) :
  aggregate_results z = Ok out ->
  exists st,
    aggregate_loop z = Ok st /\
    forall t,
      map entry_key (filter (fun e => Entry.laptime e =? t) out) =
      map fst (filter (fun kv => Best.laptime (snd kv) =? t)
                      (Dict.items (Loop.aggregated_results st))).
Proof.
  intros Hout.
  destruct (aggregate_results_inv z out Hout) as [st [b [Hloop [_ [-> _]]]]].
  exists st. split; [exact Hloop|]. intros t.
  rewrite sorted_stable, filter_map_commute, map_map.
  apply map_ext. now intros [[pid model] r].
Qed.

Lemma tied_rows_keep_mapping_order_witness :
  exists st,
    aggregate_loop More.tied_drivers = Ok st /\
    forall t,
      map entry_key (filter (fun e => Entry.laptime e =? t) More.tied_rows) =
      map fst (filter (fun kv => Best.laptime (snd kv) =? t)
                      (Dict.items (Loop.aggregated_results st))).
Proof.
  apply (tied_rows_keep_mapping_order More.tied_drivers More.tied_rows).
  reflexivity.
Defined.

(** ** The report *)

Lemma map_result_inv {A B : Type} (f : A -> result B) (l : list A) (ys : list B) :
  map_result f l = Ok ys -> Forall2 (fun x y => f x = Ok y) l ys.
Proof.
  revert ys. induction l as [|x l IH]; intros ys; simpl.
  - intros [= <-]. constructor.
  - destruct (f x) as [y|] eqn:Hx; simpl; [|discriminate].
    destruct (map_result f l) as [ys'|]; simpl; [|discriminate].
    intros [= <-]. constructor; [exact Hx|now apply IH].
Qed.



Lemma out_row_inv (car_models : Z -> option string) (e : Entry.t) (row : Row) :
  out_row car_models e = Ok row ->
  exists car s1 s2 s3 g,
    car_models (Entry.car_model e) = Some car /\
    nth_error (Entry.splits e) 0 = Some s1 /\
    nth_error (Entry.splits e) 1 = Some s2 /\
    nth_error (Entry.splits e) 2 = Some s3 /\
    format_gap (Entry.gap e) = Ok g /\
    row = [String.append (fst (Entry.name e))
             (String " "%char (snd (Entry.name e)));
           car; ms_to_time_format (Entry.laptime e);
           ms_to_time_format s1; ms_to_time_format s2; ms_to_time_format s3; g].
Proof.
  unfold out_row, car_name, list_index, bind.
  destruct (car_models (Entry.car_model e)) as [car|]; [|discriminate].
  destruct (nth_error (Entry.splits e) 0) as [s1|]; [|discriminate].
  destruct (nth_error (Entry.splits e) 1) as [s2|]; [|discriminate].
  destruct (nth_error (Entry.splits e) 2) as [s3|]; [|discriminate].
  destruct (format_gap (Entry.gap e)) as [g|]; [|discriminate].
  intros Hrow. injection Hrow as <-. now exists car, s1, s2, s3, g.
Qed.









(** ** The script *)

Lemma export_frame (car_models : Z -> option string) (output : string)
    (data : list Entry.t) (fs : FileSystem) (path : string) :
  path <> output ->
  Dict.get path (fst (export_hotlaps car_models output data fs))
  = Dict.get path fs.
Proof.
  intros Hne. unfold export_hotlaps.
  destruct (map_result (out_row car_models) data); simpl;
    now rewrite !dict_get_set_other by congruence.
Qed.

(** X15.  The script changes no file but the one named as output, whether
    it succeeds or fails. *)
Theorem main_touches_only_the_output (car_models : Z -> option string)
    (z : ZipFile) (output : string) (fs : FileSystem) (path : string) :
  path <> output ->
  Dict.get path (fst (main car_models z output fs)) = Dict.get path fs.
Proof.
  intros Hne. unfold main. destruct (aggregate_results z); [|reflexivity].
  now apply export_frame.
Qed.

Lemma main_touches_only_the_output_witness :
  Dict.get "keep.txt"%string
    (fst (main Sample.cars More.unknown_car "out.csv" More.old_report))
  = Dict.get "keep.txt"%string More.old_report.
Proof.
  apply (main_touches_only_the_output Sample.cars More.unknown_car "out.csv"
           More.old_report "keep.txt").
  discriminate.
Defined.

Lemma aggregate_head_gap (z : ZipFile) (out : list Entry.t) :
  aggregate_results z = Ok out ->
  exists e rest, out = e :: rest /\ Entry.gap e = 0.
Proof.
  intros Hout.
  destruct (aggregate_results_inv z out Hout)
    as [st [b [_ [_ [-> [[kv [Hkv Hb]] Hle]]]]]].
  set (rows := map (rank_entry b) (Dict.items (Loop.aggregated_results st))) in *.
  pose proof (sorted_perm Entry.laptime rows) as Hp.
  pose proof (sorted_sorted Entry.laptime rows) as Hs.
  assert (Hfast : In (rank_entry b kv) (sorted Entry.laptime rows)).
  { apply (Permutation_in (l := rows)); [now symmetry|now apply in_map]. }
  assert (Hall : forall e, In e (sorted Entry.laptime rows) ->
                           Entry.gap e = Entry.laptime e - b /\ 0 <= Entry.gap e).
  { intros e He. apply (Permutation_in _ Hp) in He.
    apply in_map_iff in He as [kv' [<- Hkv']]. simpl.
    specialize (Hle kv' Hkv'). lia. }
  destruct (sorted Entry.laptime rows) as [|e rest]; [destruct Hfast|].
  exists e, rest. split; [reflexivity|].
  destruct (Hall e (or_introl eq_refl)) as [Hg Hpos].
  inversion Hs as [|? ? _ Hhead]; subst.
  destruct Hfast as [He|Hin].
  - rewrite He. simpl. lia.
  - rewrite Forall_forall in Hhead. specialize (Hhead _ Hin).
    simpl in Hhead. lia.
Qed.

(** X16.  When the script succeeds, the output file holds the header line
    and then one line per ranked row, and the Gap field of the first data
    line, the fastest entry, reads 0.000. *)
Theorem report_first_line_has_zero_gap (car_models : Z -> option string)
    (z : ZipFile) (output : string) (fs : FileSystem) :
  snd (main car_models z output fs) = Ok tt ->
  exists out first rest,
    aggregate_results z = Ok out /\
    Dict.get output (fst (main car_models z output fs))
      = Some (fieldnames :: first :: rest) /\
    List.length (first :: rest) = List.length out /\
    nth_error first 6 = Some "0.000"%string.
Proof.
  unfold main. destruct (aggregate_results z) as [out|e] eqn:Hout;
    [|discriminate].
  unfold export_hotlaps.
  destruct (map_result (out_row car_models) out) as [rows|e] eqn:Hrows;
    [|discriminate].
  intros _. simpl.
  destruct (aggregate_head_gap z out Hout) as [e [rest [-> Hgap]]].
  apply map_result_inv in Hrows.
  inversion Hrows as [|? row ? rows' Hrow Hrest]; subst.
  exists (e :: rest), row, rows'. split; [reflexivity|].
  split; [apply dict_get_set_same|]. split.
  - simpl. f_equal. symmetry. exact (Forall2_length Hrest).
  - destruct (out_row_inv _ _ _ Hrow)
      as [car [s1 [s2 [s3 [g [_ [_ [_ [_ [Hg ->]]]]]]]]]].
    rewrite Hgap in Hg. simpl. f_equal.
    change (format_gap 0) with (@Ok string "0.000"%string) in Hg. congruence.
Qed.

Lemma report_first_line_has_zero_gap_witness :
  exists out first rest,
    aggregate_results Sample.two_sessions = Ok out /\
    Dict.get "out.csv"%string
      (fst (main Sample.cars Sample.two_sessions "out.csv" More.old_report))
      = Some (fieldnames :: first :: rest) /\
    List.length (first :: rest) = List.length out /\
    nth_error first 6 = Some "0.000"%string.
Proof.
  apply (report_first_line_has_zero_gap Sample.cars Sample.two_sessions
           "out.csv" More.old_report).
  reflexivity.
Defined.

(** ** Times: negative input, and reading a time back *)

(** X17.  On a negative millisecond value [ms_to_time_format] puts a minus
    sign in front of the minutes, which are the floor of [ms / 60000]
    written without their sign; seconds and milliseconds are those of the
    non-negative remainder, so that -1 renders as -1:59.999.  The sign
    counts towards the width of two: down to -9 minutes the minutes show a
    single digit. *)
Theorem ms_to_time_format_negative (ms : Z) :
  ms < 0 ->
  exists mm ss mmm,
    ms_to_time_format ms = String "-"%char (time_text mm ss mmm) /\
    all_digits mm = true /\ all_digits ss = true /\ all_digits mmm = true /\
    parse_decimal mm = - (ms / 60000) /\
    parse_decimal ss = ms mod 60000 / 1000 /\
    parse_decimal mmm = ms mod 1000 /\
    - parse_decimal mm * 60000 + parse_decimal ss * 1000 + parse_decimal mmm
    = ms /\
    String.length ss = 2%nat /\ String.length mmm = 3%nat /\
    (- 540000 <= ms -> String.length mm = 1%nat).
Proof.
  intros Hms.
  set (minutes := ms / 60000). set (seconds := ms mod 60000 / 1000).
  set (millis := ms mod 1000).
  assert (Hmin : minutes < 0) by (apply Z.div_lt_upper_bound; lia).
  assert (Hsec : 0 <= seconds < 60).
  { unfold seconds. pose proof (Z.mod_pos_bound ms 60000 ltac:(lia)).
    split; [apply Z.div_pos; lia|apply Z.div_lt_upper_bound; lia]. }
  assert (Hmil : 0 <= millis < 1000) by (apply Z.mod_pos_bound; lia).
  destruct (format_field 2 seconds (proj1 Hsec)) as [Hd2 [Hp2 Hl2]].
  destruct (format_field 3 millis (proj1 Hmil)) as [Hd3 [Hp3 Hl3]].
  destruct (decimal_digits (- minutes) ltac:(lia)) as [Hd1 Hp1].
  destruct (zfill_facts 1 (decimal (- minutes))) as [Hl1 [Hz1 Hq1]].
  destruct (decimal_length (- minutes) ltac:(lia)) as [Hm1 [Hm2 _]].
  destruct (decimal_length seconds (proj1 Hsec)) as [_ [Hs2 [Hs3 _]]].
  destruct (decimal_length millis (proj1 Hmil)) as [_ [Ht2 [Ht3 [Ht4 _]]]].
  exists (zfill 1 (decimal (- minutes))), (format_int_zero_pad 2 seconds),
         (format_int_zero_pad 3 millis).
  split.
  { unfold ms_to_time_format, time_text. fold minutes seconds millis.
    unfold format_int_zero_pad at 1.
    destruct (minutes <? 0) eqn:E; [reflexivity|lia]. }
  rewrite Hz1, Hq1, Hd1, Hp1, Hp2, Hp3, Hl1, Hl2, Hl3.
  repeat split; try assumption.
  - unfold minutes, seconds, millis. Z.div_mod_to_equations. lia.
  - destruct (Z_lt_le_dec seconds 10); [rewrite Hs2|rewrite Hs3]; lia.
  - destruct (Z_lt_le_dec millis 10); [rewrite Ht2; lia|].
    destruct (Z_lt_le_dec millis 100); [rewrite Ht3|rewrite Ht4]; lia.
  - intros Hlow. assert (- 9 <= minutes)
      by (apply Z.div_le_lower_bound; lia).
    rewrite Hm2; lia.
Qed.

Lemma ms_to_time_format_negative_witness :
  exists mm ss mmm,
    ms_to_time_format (-1) = String "-"%char (time_text mm ss mmm) /\
    all_digits mm = true /\ all_digits ss = true /\ all_digits mmm = true /\
    parse_decimal mm = - (-1 / 60000) /\
    parse_decimal ss = -1 mod 60000 / 1000 /\
    parse_decimal mmm = -1 mod 1000 /\
    - parse_decimal mm * 60000 + parse_decimal ss * 1000 + parse_decimal mmm
    = -1 /\
    String.length ss = 2%nat /\ String.length mmm = 3%nat /\
    (- 540000 <= -1 -> String.length mm = 1%nat).
Proof.
  apply (ms_to_time_format_negative (-1)). lia.
Defined.

Lemma digit_not_separator (c : ascii) :
  is_digit c = true -> Ascii.eqb c ":" = false /\ Ascii.eqb c "." = false.
Proof.
  intros Hd. split.
  - destruct (Ascii.eqb_spec c ":") as [->|_]; [discriminate|reflexivity].
  - destruct (Ascii.eqb_spec c ".") as [->|_]; [discriminate|reflexivity].
Qed.

Lemma read_time_digits (total cur : Z) (s rest : string) :
  all_digits s = true ->
  read_time_from total cur (String.append s rest)
  = read_time_from total (parse_from cur s) rest.
Proof.
  revert cur. induction s as [|c s IH]; intros cur Hall; [reflexivity|].
  cbn [all_digits] in Hall. apply andb_true_iff in Hall as [Hc Hs].
  destruct (digit_not_separator c Hc) as [H1 H2].
  cbn [String.append read_time_from parse_from]. rewrite H1, H2.
  now apply IH.
Qed.

Lemma read_time_digits_end (total cur : Z) (s : string) :
  all_digits s = true ->
  read_time_from total cur s = total + parse_from cur s.
Proof.
  revert cur. induction s as [|c s IH]; intros cur Hall; [reflexivity|].
  cbn [all_digits] in Hall. apply andb_true_iff in Hall as [Hc Hs].
  destruct (digit_not_separator c Hc) as [H1 H2].
  cbn [read_time_from parse_from]. rewrite H1, H2. now apply IH.
Qed.

Lemma read_time_colon (total cur : Z) (s : string) :
  read_time_from total cur (String ":"%char s)
  = read_time_from (total + cur * 60000) 0 s.
Proof. reflexivity. Qed.

Lemma read_time_dot (total cur : Z) (s : string) :
  read_time_from total cur (String "."%char s)
  = read_time_from (total + cur * 1000) 0 s.
Proof. reflexivity. Qed.

Lemma read_time_text (mm ss mmm : string) :
  all_digits mm = true -> all_digits ss = true -> all_digits mmm = true ->
  read_time (time_text mm ss mmm)
  = parse_decimal mm * 60000 + parse_decimal ss * 1000 + parse_decimal mmm.
Proof.
  intros H1 H2 H3. unfold read_time, time_text, parse_decimal.
  rewrite read_time_digits, read_time_colon by exact H1.
  rewrite read_time_digits, read_time_dot by exact H2.
  rewrite read_time_digits_end by exact H3. lia.
Qed.

Lemma read_time_of_format (ms : Z) :
  0 <= ms -> read_time (ms_to_time_format ms) = ms.
Proof.
  intros Hms.
  assert (Hmin : 0 <= ms / 60000) by (apply Z.div_pos; lia).
  assert (Hsec : 0 <= ms mod 60000 / 1000)
    by (apply Z.div_pos; [apply Z.mod_pos_bound|]; lia).
  assert (Hmil : 0 <= ms mod 1000) by (apply Z.mod_pos_bound; lia).
  destruct (format_field 2 _ Hmin) as [Hd1 [Hp1 _]].
  destruct (format_field 2 _ Hsec) as [Hd2 [Hp2 _]].
  destruct (format_field 3 _ Hmil) as [Hd3 [Hp3 _]].
  change (ms_to_time_format ms)
    with (time_text (format_int_zero_pad 2 (ms / 60000))
                    (format_int_zero_pad 2 (ms mod 60000 / 1000))
                    (format_int_zero_pad 3 (ms mod 1000))).
  rewrite read_time_text, Hp1, Hp2, Hp3 by assumption.
  Z.div_mod_to_equations. lia.
Qed.

(** X18.  Non-negative times are rendered without loss: reading the text
    of [ms_to_time_format] back (minutes times 60000, seconds times 1000,
    milliseconds) gives the input again, so two different non-negative
    values never get the same text. *)
Theorem ms_to_time_format_is_injective (a b : Z) :
  0 <= a -> 0 <= b ->
  read_time (ms_to_time_format a) = a /\
  (ms_to_time_format a = ms_to_time_format b -> a = b).
Proof.
  intros Ha Hb. split; [now apply read_time_of_format|].
  intros Heq. rewrite <- (read_time_of_format a Ha), Heq.
  now apply read_time_of_format.
Qed.

Lemma ms_to_time_format_is_injective_witness :
  read_time (ms_to_time_format 6061234) = 6061234 /\
  (ms_to_time_format 6061234 = ms_to_time_format 61234 -> 6061234 = 61234).
Proof.
  apply (ms_to_time_format_is_injective 6061234 61234); lia.
Defined.
